(** * Scaffold generator: [/create] command (template-cloning and
      generator-driven variants)

    A shallow embedding of the two [createCommand] sources:
    - the template-cloning variant ([validateProjectName],
      [getTemplatePath], [replaceProjectNames], [copyAndReplaceFile],
      [copyAndReplaceDir], [createCommand.action]);
    - the generator-driven variant
      (packages/cli/src/ui/commands/createCommand.ts).

    JavaScript strings are sequences of UTF-16 code units; the regular
    expressions of the sources carry no [u] flag and therefore work on
    code units.  The regular-expression fragment the sources use
    (literals, character classes, greedy class repetition, one capture
    group, alternation, the anchors) is embedded with a backtracking
    matcher, and [String.prototype.replace] with a global pattern is
    embedded together with the expansion of replacement templates. *)

From Stdlib Require Import String Ascii.
From Stdlib Require Import List NArith Bool Arith Lia.
Import ListNotations.

(* ================================================================= *)
(** * Part I - definitions *)
(* ================================================================= *)

(** ** Strings *)

Definition code_unit := N.
Definition jsstring := list code_unit.

(** An ASCII literal of the source as a sequence of code units. *)
Definition lit (s : string) : jsstring :=
  map N_of_ascii (list_ascii_of_string s).

(** [haystack.includes(needle)] *)
Fixpoint starts_with (needle s : jsstring) : bool :=
  match needle, s with
  | [], _ => true
  | a :: needle', x :: s' => (a =? x)%N && starts_with needle' s'
  | _ :: _, [] => false
  end.

Fixpoint includes (needle s : jsstring) : bool :=
  starts_with needle s ||
  match s with
  | [] => false
  | _ :: s' => includes needle s'
  end.

(** ** Character classes *)

Definition in_range (lo hi c : code_unit) : bool := ((lo <=? c) && (c <=? hi))%N.

(** [[a-z]] *)
Definition lower (c : code_unit) : bool := in_range 97%N 122%N c.
(** [[0-9]] *)
Definition digit (c : code_unit) : bool := in_range 48%N 57%N c.
(** [[A-Z]] *)
Definition upper (c : code_unit) : bool := in_range 65%N 90%N c.

Definition hyphen : code_unit := 45%N.
Definition underscore : code_unit := 95%N.
Definition dollar : code_unit := 36%N.
Definition less_than : code_unit := 60%N.

(** [[a-z0-9-]] *)
Definition lower_digit_hyphen (c : code_unit) : bool :=
  lower c || digit c || (c =? hyphen)%N.
(** [[a-z0-9]] *)
Definition lower_digit (c : code_unit) : bool := lower c || digit c.
(** [[^<]] *)
Definition not_less_than (c : code_unit) : bool := negb (c =? less_than)%N.

(** [\s], and the code units [trim] strips: WhiteSpace and
    LineTerminator of the language specification. *)
Definition white_space (c : code_unit) : bool :=
  (in_range 9 13 c || (c =? 32) || (c =? 160) || (c =? 5760)
   || in_range 8192 8202 c || (c =? 8232) || (c =? 8233) || (c =? 8239)
   || (c =? 8287) || (c =? 12288) || (c =? 65279))%N.

(** ** Regular expressions *)

Inductive regex : Type :=
| Lit (l : jsstring)                 (* a run of literal code units *)
| Cls (p : code_unit -> bool)        (* one code unit of a class *)
| Star (p : code_unit -> bool)       (* greedy  class*  *)
| Plus (p : code_unit -> bool)       (* greedy  class+  *)
| Seq (r1 r2 : regex)
| Alt (r1 r2 : regex)
| Grp (i : nat) (r : regex)          (* capture group; [i] counts from 0 *)
| Bol                                (* ^ *)
| Eol.                               (* $ *)

Definition captures := list (option jsstring).

Fixpoint set_capture (i : nat) (v : jsstring) (c : captures) : captures :=
  match c, i with
  | [], _ => []
  | _ :: c', O => Some v :: c'
  | x :: c', S i' => x :: set_capture i' v c'
  end.

Fixpoint group_count (r : regex) : nat :=
  match r with
  | Seq r1 r2 | Alt r1 r2 => group_count r1 + group_count r2
  | Grp _ r1 => S (group_count r1)
  | _ => 0
  end.

(** The matcher is written with continuations: [k] receives the input
    that is left and the captures so far, and a failing continuation
    makes the matcher backtrack.  The result is the input left after the
    whole match, with the captures. *)
Definition cont := jsstring -> captures -> option (jsstring * captures).

Fixpoint match_lit (l s : jsstring) : option jsstring :=
  match l, s with
  | [], _ => Some s
  | a :: l', x :: s' => if (a =? x)%N then match_lit l' s' else None
  | _ :: _, [] => None
  end.

Fixpoint match_star (p : code_unit -> bool) (s : jsstring) (c : captures)
    (k : cont) : option (jsstring * captures) :=
  match s with
  | x :: s' =>
      if p x then
        match match_star p s' c k with
        | Some res => Some res
        | None => k s c
        end
      else k s c
  | [] => k s c
  end.

(** [total] is the length of the whole subject string: [^] holds where
    all of it is still to be read. *)
Fixpoint rmatch (r : regex) (total : nat) (s : jsstring) (c : captures)
    (k : cont) {struct r} : option (jsstring * captures) :=
  match r with
  | Lit l =>
      match match_lit l s with
      | Some s' => k s' c
      | None => None
      end
  | Cls p =>
      match s with
      | x :: s' => if p x then k s' c else None
      | [] => None
      end
  | Star p => match_star p s c k
  | Plus p =>
      match s with
      | x :: s' => if p x then match_star p s' c k else None
      | [] => None
      end
  | Seq r1 r2 => rmatch r1 total s c (fun s' c' => rmatch r2 total s' c' k)
  | Alt r1 r2 =>
      match rmatch r1 total s c k with
      | Some res => Some res
      | None => rmatch r2 total s c k
      end
  | Grp i r1 =>
      rmatch r1 total s c
        (fun s' c' =>
           k s' (set_capture i (firstn (length s - length s') s) c'))
  | Bol => if length s =? total then k s c else None
  | Eol =>
      match s with
      | [] => k s c
      | _ :: _ => None
      end
  end.

(** A match that starts exactly where [s] starts. *)
Definition match_at (r : regex) (total : nat) (s : jsstring)
  : option (jsstring * captures) :=
  rmatch r total s (repeat None (group_count r)) (fun s' c' => Some (s', c')).

(** [regex.test(s)] for a pattern without the global flag: is there a
    start position with a match? *)
Fixpoint test_from (r : regex) (total : nat) (s : jsstring) : bool :=
  match match_at r total s with
  | Some _ => true
  | None =>
      match s with
      | [] => false
      | _ :: s' => test_from r total s'
      end
  end.

Definition regexp_test (r : regex) (s : jsstring) : bool :=
  test_from r (length s) s.

(** ** Name validator (the same function in both source files)

    [/^[a-z][a-z0-9-]*[a-z0-9]$|^[a-z]$/.test(name)] *)

Definition name_pattern : regex :=
  Alt (Seq Bol (Seq (Cls lower)
         (Seq (Star lower_digit_hyphen) (Seq (Cls lower_digit) Eol))))
      (Seq Bol (Seq (Cls lower) Eol)).

Definition validateProjectName (name : jsstring) : bool :=
  regexp_test name_pattern name.

(** ** Replacement templates: GetSubstitution

    [matched] is the matched text, [before] and [after] are the parts of
    the subject before and after it.  None of the patterns has a named
    group, so [$<] stays as it is written. *)

Definition digit_value (c : code_unit) : nat := N.to_nat (c - 48).

Definition capture_text (caps : captures) (index : nat) : jsstring :=
  match nth_error caps (index - 1) with
  | Some (Some v) => v
  | _ => []
  end.

Fixpoint get_substitution (matched before after : jsstring) (caps : captures)
    (t : jsstring) : jsstring :=
  let one_digit d rest_after_digit :=
    let index := digit_value d in
    if (1 <=? index) && (index <=? length caps)
    then capture_text caps index ++ rest_after_digit
    else dollar :: d :: rest_after_digit in
  match t with
  | [] => []
  | c :: t1 =>
      if negb (c =? dollar)%N then
        c :: get_substitution matched before after caps t1
      else
        match t1 with
        | [] => [dollar]
        | d :: t2 =>
            if (d =? 36)%N then                        (* $$ *)
              dollar :: get_substitution matched before after caps t2
            else if (d =? 38)%N then                   (* $& *)
              matched ++ get_substitution matched before after caps t2
            else if (d =? 96)%N then                   (* $` *)
              before ++ get_substitution matched before after caps t2
            else if (d =? 39)%N then                   (* $' *)
              after ++ get_substitution matched before after caps t2
            else if digit d then
              match t2 with
              | d2 :: t3 =>
                  if digit d2 then
                    let index := 10 * digit_value d + digit_value d2 in
                    if index <=? length caps then
                      if 1 <=? index then
                        capture_text caps index
                          ++ get_substitution matched before after caps t3
                      else
                        dollar :: d :: d2
                          :: get_substitution matched before after caps t3
                    else
                      one_digit d
                        (get_substitution matched before after caps t2)
                  else
                    one_digit d
                      (get_substitution matched before after caps t2)
              | [] =>
                  one_digit d
                    (get_substitution matched before after caps t2)
              end
            else
              dollar :: get_substitution matched before after caps t1
        end
  end.

(** ** [s.replace(/pattern/g, template)]

    The subject is read from left to right.  [before] is the part already
    read and [skip] the number of code units of the current match still
    to be passed over.  Where no match is in progress the pattern is tried
    at the current position: a match contributes the expanded template
    and the scan goes on behind it (one code unit further when the match
    is empty, and that code unit is copied); without a match the code
    unit is copied.  The end of the subject is a position too. *)
Fixpoint replace_from (r : regex) (template : jsstring) (total : nat)
    (before : jsstring) (skip : nat) (s : jsstring) : jsstring :=
  match s with
  | [] =>
      match skip with
      | O =>
          match match_at r total [] with
          | Some (_, caps) => get_substitution [] before [] caps template
          | None => []
          end
      | S _ => []
      end
  | x :: s' =>
      match skip with
      | S skip' => replace_from r template total (before ++ [x]) skip' s'
      | O =>
          match match_at r total s with
          | Some (rest, caps) =>
              let n := length s - length rest in
              get_substitution (firstn n s) before rest caps template
                ++ match n with
                   | O => x :: replace_from r template total (before ++ [x]) 0 s'
                   | S n' => replace_from r template total (before ++ [x]) n' s'
                   end
          | None => x :: replace_from r template total (before ++ [x]) 0 s'
          end
      end
  end.

Definition replace_global (r : regex) (template s : jsstring) : jsstring :=
  replace_from r template (length s) [] 0 s.

(** ** Token rewriter: [replaceProjectNames] *)

(** One [.replace(pattern, template)] call of the chain. *)
Definition rule : Type := regex * jsstring.

Definition apply_rule (s : jsstring) (ru : rule) : jsstring :=
  replace_global (fst ru) (snd ru) s.

(** [<tag>sns-demo-([^<]+)</tag>] *)
Definition suffixed (open_tag close_tag : string) : regex :=
  Seq (Lit (lit open_tag))
      (Seq (Grp 0 (Plus not_less_than)) (Lit (lit close_tag))).

(** The calls of the chain in the order of the source; [oldName] is a
    parameter of the function that its body does not mention. *)
Definition rules (newName : jsstring) : list rule :=
  let cleanNewName := replace_global (Lit (lit "-")) [] newName in
  [ (Lit (lit "com.xiaohongshu.sns.demo"),
     lit "com.xiaohongshu.sns." ++ cleanNewName);
    (Lit (lit "<artifactId>sns-demo-parent</artifactId>"),
     lit "<artifactId>" ++ newName ++ lit "-parent</artifactId>");
    (suffixed "<artifactId>sns-demo-" "</artifactId>",
     lit "<artifactId>" ++ newName ++ lit "-$1</artifactId>");
    (Lit (lit "<artifactId>sns-demo</artifactId>"),
     lit "<artifactId>" ++ newName ++ lit "</artifactId>");
    (Lit (lit "<name>sns-demo</name>"),
     lit "<name>" ++ newName ++ lit "</name>");
    (suffixed "<name>sns-demo-" "</name>",
     lit "<name>" ++ newName ++ lit "-$1</name>");
    (suffixed "<module>sns-demo-" "</module>",
     lit "<module>" ++ newName ++ lit "-$1</module>");
    (suffixed "<artifactId>${projectName}-" "</artifactId>",
     lit "<artifactId>" ++ newName ++ lit "-$1</artifactId>");
    (Lit (lit "spring.application.name=sns-demo"),
     lit "spring.application.name=" ++ newName);
    (Seq (Lit (lit "spring.application.name:"))
         (Seq (Star white_space) (Lit (lit "sns-demo"))),
     lit "spring.application.name: " ++ newName);
    (Lit (lit "sns-demo"), newName) ].

Definition replaceProjectNames (content oldName newName : jsstring) : jsstring :=
  fold_left apply_rule (rules newName) content.

(** The renaming of a directory entry in [copyAndReplaceDir]:
    [item.replace(/sns-demo/g, newName)]. *)
Definition destItemName (item newName : jsstring) : jsstring :=
  replace_global (Lit (lit "sns-demo")) newName item.

(** ** Paths

    An absolute path is the list of its segments below the root.
    [path.join] glues its arguments with [/] and normalises the result:
    empty segments and [.] vanish, [..] steps to the parent (the root is
    its own parent). *)

Definition path := list jsstring.

Definition slash : code_unit := 47%N.

Fixpoint str_eqb (a b : jsstring) : bool :=
  match a, b with
  | [], [] => true
  | x :: a', y :: b' => (x =? y)%N && str_eqb a' b'
  | _, _ => false
  end.

Fixpoint split_slash (cur s : jsstring) : list jsstring :=
  match s with
  | [] => [cur]
  | x :: s' =>
      if (x =? slash)%N then cur :: split_slash [] s'
      else split_slash (cur ++ [x]) s'
  end.

Definition join_segment (base : path) (seg : jsstring) : path :=
  if str_eqb seg [] || str_eqb seg (lit ".") then base
  else if str_eqb seg (lit "..") then removelast base
  else base ++ [seg].

Definition path_join (base : path) (parts : list jsstring) : path :=
  fold_left join_segment (flat_map (split_slash []) parts) base.

(** [path.dirname] *)
Definition dirname (p : path) : path := removelast p.

(** A name a directory entry can carry. *)
Definition segment_ok (n : jsstring) : bool :=
  negb (str_eqb n []) && negb (str_eqb n (lit ".")) && negb (str_eqb n (lit ".."))
  && forallb (fun c => negb (c =? slash)%N) n.

(** ** File system

    The file system is one tree.  A directory lists its entries in the
    order [readdirSync] reports them; a new entry goes to the end.
    [Other] stands for what is neither a regular file nor a directory. *)

#[local] Unset Elimination Schemes.
Inductive node : Type :=
| File (content : jsstring)
| Dir (entries : list (jsstring * node))
| Other.
#[local] Set Elimination Schemes.

Inductive stats : Type := IsFile | IsDirectory | IsOther.

Definition stats_of (t : node) : stats :=
  match t with
  | File _ => IsFile
  | Dir _ => IsDirectory
  | Other => IsOther
  end.

Fixpoint find_entry (n : jsstring) (es : list (jsstring * node)) : option node :=
  match es with
  | [] => None
  | (m, v) :: es' => if str_eqb n m then Some v else find_entry n es'
  end.

Fixpoint set_entry (n : jsstring) (v : node) (es : list (jsstring * node))
  : list (jsstring * node) :=
  match es with
  | [] => [(n, v)]
  | (m, u) :: es' =>
      if str_eqb n m then (m, v) :: es' else (m, u) :: set_entry n v es'
  end.

Definition remove_entry (n : jsstring) (es : list (jsstring * node))
  : list (jsstring * node) :=
  filter (fun e => negb (str_eqb n (fst e))) es.

Fixpoint lookup (p : path) (t : node) : option node :=
  match p with
  | [] => Some t
  | n :: p' =>
      match t with
      | Dir es =>
          match find_entry n es with
          | Some v => lookup p' v
          | None => None
          end
      | _ => None
      end
  end.

Inductive errno : Type := ENOENT | ENOTDIR | EISDIR | EEXIST | EACCES.

(** [mkdir -p]: missing directories on the way are created; a component
    that exists and is no directory is an error. *)
Fixpoint mkdirp (p : path) (t : node) : errno + node :=
  match p with
  | [] =>
      match t with
      | Dir _ => inr t
      | _ => inl EEXIST
      end
  | n :: p' =>
      match t with
      | Dir es =>
          match find_entry n es with
          | Some v =>
              match mkdirp p' v with
              | inr v' => inr (Dir (set_entry n v' es))
              | inl c => inl c
              end
          | None =>
              match mkdirp p' (Dir []) with
              | inr v' => inr (Dir (set_entry n v' es))
              | inl c => inl c
              end
          end
      | _ => inl ENOTDIR
      end
  end.

(** Creating or overwriting a regular file; the parent has to be a
    directory, the target must not be one. *)
Fixpoint write_file (p : path) (content : jsstring) (t : node) : errno + node :=
  match p with
  | [] =>
      match t with
      | File _ => inr (File content)
      | Dir _ => inl EISDIR
      | Other => inl EACCES
      end
  | n :: p' =>
      match t with
      | Dir es =>
          match find_entry n es with
          | Some v =>
              match write_file p' content v with
              | inr v' => inr (Dir (set_entry n v' es))
              | inl c => inl c
              end
          | None =>
              match p' with
              | [] => inr (Dir (set_entry n (File content) es))
              | _ :: _ => inl ENOENT
              end
          end
      | _ => inl ENOTDIR
      end
  end.

(** Removing the entry at [p] with everything below it; nothing happens
    where there is no such entry. *)
Fixpoint remove_path (p : path) (t : node) : node :=
  match p with
  | [] => t
  | n :: p' =>
      match t with
      | Dir es =>
          match p' with
          | [] => Dir (remove_entry n es)
          | _ :: _ =>
              match find_entry n es with
              | Some v => Dir (set_entry n (remove_path p' v) es)
              | None => t
              end
          end
      | _ => t
      end
  end.

(** ** The environment of a run

    [process.cwd()], [__dirname], [process.argv[0]]; the calls of [fs]
    that the environment lets fail (permissions, a full disk), and the
    depth of the call stack: recursion beyond it is a [RangeError]. *)

Inductive fs_op : Type :=
| Mkdir (p : path)
| Readdir (p : path)
| Stat (p : path)
| ReadFile (p : path)
| WriteFile (p : path)
| Rm (p : path).

Inductive error : Type :=
| FsError (code : errno) (op : fs_op)
| RangeError.

Record env : Type := {
  cwd : path;
  module_dirname : path;
  argv0 : path;
  faults : fs_op -> bool;
  stack_limit : nat
}.

(** ** Computations on the file system that may throw

    A throw keeps the state reached so far: what was written before the
    error stays written. *)

Inductive outcome (A : Type) : Type :=
| Done (a : A)
| Throw (e : error).
Arguments Done {A} a.
Arguments Throw {A} e.

Definition M (A : Type) : Type := node -> outcome A * node.

Definition ret {A} (a : A) : M A := fun t => (Done a, t).
Definition throw {A} (e : error) : M A := fun t => (Throw e, t).
Definition bind {A B} (m : M A) (k : A -> M B) : M B :=
  fun t =>
    match m t with
    | (Done a, t') => k a t'
    | (Throw e, t') => (Throw e, t')
    end.

Notation "x <- m ;; k" := (bind m (fun x => k))
  (at level 61, m at next level, right associativity).
Notation "m ;;; k" := (bind m (fun _ => k))
  (at level 61, right associativity).

Fixpoint for_each {A} (l : list A) (body : A -> M unit) : M unit :=
  match l with
  | [] => ret tt
  | a :: l' => body a ;;; for_each l' body
  end.

(** *** The calls of [fs] *)

Definition existsSync (t : node) (p : path) : bool :=
  match lookup p t with
  | Some _ => true
  | None => false
  end.

Definition guarded {A} (e : env) (op : fs_op) (m : M A) : M A :=
  if faults e op then throw (FsError EACCES op) else m.

(** [fs.mkdirSync(p, { recursive: true })] *)
Definition mkdirSync (e : env) (p : path) : M unit :=
  guarded e (Mkdir p) (fun t =>
    match mkdirp p t with
    | inr t' => (Done tt, t')
    | inl c => (Throw (FsError c (Mkdir p)), t)
    end).

Definition readdirSync (e : env) (p : path) : M (list jsstring) :=
  guarded e (Readdir p) (fun t =>
    match lookup p t with
    | Some (Dir es) => (Done (map fst es), t)
    | Some _ => (Throw (FsError ENOTDIR (Readdir p)), t)
    | None => (Throw (FsError ENOENT (Readdir p)), t)
    end).

Definition statSync (e : env) (p : path) : M stats :=
  guarded e (Stat p) (fun t =>
    match lookup p t with
    | Some v => (Done (stats_of v), t)
    | None => (Throw (FsError ENOENT (Stat p)), t)
    end).

(** [fs.readFileSync(p, 'utf8')]; a file holds the string it decodes to. *)
Definition readFileSync (e : env) (p : path) : M jsstring :=
  guarded e (ReadFile p) (fun t =>
    match lookup p t with
    | Some (File c) => (Done c, t)
    | Some (Dir _) => (Throw (FsError EISDIR (ReadFile p)), t)
    | Some Other => (Throw (FsError EACCES (ReadFile p)), t)
    | None => (Throw (FsError ENOENT (ReadFile p)), t)
    end).

(** [fs.writeFileSync(p, content, 'utf8')] *)
Definition writeFileSync (e : env) (p : path) (content : jsstring) : M unit :=
  guarded e (WriteFile p) (fun t =>
    match write_file p content t with
    | inr t' => (Done tt, t')
    | inl c => (Throw (FsError c (WriteFile p)), t)
    end).

(** [fs.rmSync(p, { recursive: true, force: true })] *)
Definition rmSync (e : env) (p : path) : M unit :=
  guarded e (Rm p) (fun t => (Done tt, remove_path p t)).

(** [if (!fs.existsSync(dir)) { fs.mkdirSync(dir, { recursive: true }) }] *)
Definition ensure_dir (e : env) (dir : path) : M unit :=
  fun t => if negb (existsSync t dir) then mkdirSync e dir t else (Done tt, t).

(** [args.trim()] *)
Fixpoint trim_start (s : jsstring) : jsstring :=
  match s with
  | x :: s' => if white_space x then trim_start s' else s
  | [] => []
  end.

Definition trim (s : jsstring) : jsstring :=
  rev (trim_start (rev (trim_start s))).

Inductive MessageType : Type := INFO | ERROR.

(** ** Template-cloning variant *)

Module Clone.

(** *** Tree cloner *)

Definition copyAndReplaceFile (e : env) (srcFile destFile : path)
    (oldName newName : jsstring) : M unit :=
  let destDir := dirname destFile in
  ensure_dir e destDir ;;;
  content <- readFileSync e srcFile ;;
  let newContent := replaceProjectNames content oldName newName in
  writeFileSync e destFile newContent.

(** [depth] is the room left on the call stack. *)
Fixpoint copyAndReplaceDir (e : env) (depth : nat) (srcDir destDir : path)
    (oldName newName : jsstring) {struct depth} : M unit :=
  match depth with
  | O => throw RangeError
  | S depth' =>
      ensure_dir e destDir ;;;
      items <- readdirSync e srcDir ;;
      for_each items (fun item =>
        let srcPath := path_join srcDir [item] in
        let destPath := path_join destDir [destItemName item newName] in
        st <- statSync e srcPath ;;
        match st with
        | IsDirectory => copyAndReplaceDir e depth' srcPath destPath oldName newName
        | IsFile => copyAndReplaceFile e srcPath destPath oldName newName
        | IsOther => ret tt
        end)
  end.

(** *** Template locator *)

Definition possiblePaths (e : env) : list path :=
  let exec_dir := dirname (argv0 e) in
  [ path_join (cwd e) [lit "sns-demo"];
    path_join (module_dirname e) [lit ".."; lit ".."; lit ".."; lit ".."; lit "sns-demo"];
    path_join (module_dirname e) [lit "template"];
    path_join (module_dirname e) [lit ".."; lit "template"];
    path_join (module_dirname e) [lit ".."; lit ".."; lit "template"];
    path_join exec_dir [lit "template"];
    path_join exec_dir [lit ".."; lit "template"];
    path_join exec_dir [lit ".."; lit "lib"; lit "template"] ].

Definition getTemplatePath (e : env) (t : node) : path :=
  match find (existsSync t) (possiblePaths e) with
  | Some templatePath => templatePath
  | None => path_join (cwd e) [lit "sns-demo"]
  end.

(** *** Orchestrator *)

(** The texts of the items, by the template they are built from. *)
Inductive item_text : Type :=
| InvalidName
| TemplateMissing (templatePath : path)
| TargetExists (targetPath : path)
| Starting (projectName : jsstring)
| Created (projectName : jsstring) (targetPath : path)
| CreateFailed (e : error).

Record HistoryItem : Type := { item_type : MessageType; item_text_of : item_text }.

(** What a run can change: the file system, the items shown by the host
    ([context.ui.addItem]) and the lines of [console.warn]; the newest
    entry is first. *)
Record world : Type := {
  fs : node;
  ui : list HistoryItem;
  console : list error
}.

Definition addItem (ty : MessageType) (tx : item_text) (w : world) : world :=
  {| fs := fs w; ui := {| item_type := ty; item_text_of := tx |} :: ui w;
     console := console w |}.

Definition console_warn (err : error) (w : world) : world :=
  {| fs := fs w; ui := ui w; console := err :: console w |}.

Definition set_fs (t : node) (w : world) : world :=
  {| fs := t; ui := ui w; console := console w |}.

Definition action (e : env) (args : jsstring) (w : world) : world :=
  let projectName := trim args in
  if negb (validateProjectName projectName) then
    addItem ERROR InvalidName w
  else
    let templatePath := getTemplatePath e (fs w) in
    if negb (existsSync (fs w) templatePath) then
      addItem ERROR (TemplateMissing templatePath) w
    else
      let targetPath := path_join (cwd e) [projectName] in
      if existsSync (fs w) targetPath then
        addItem ERROR (TargetExists targetPath) w
      else
        let w1 := addItem INFO (Starting projectName) w in
        match copyAndReplaceDir e (stack_limit e) templatePath targetPath
                (lit "demo") projectName (fs w1) with
        | (Done _, t) =>
            addItem INFO (Created projectName targetPath) (set_fs t w1)
        | (Throw err, t) =>
            let w2 := set_fs t w1 in
            let w3 :=
              if existsSync (fs w2) targetPath then
                match rmSync e targetPath (fs w2) with
                | (Done _, t') => set_fs t' w2
                | (Throw cleanupError, t') =>
                    console_warn cleanupError (set_fs t' w2)
                end
              else w2 in
            addItem ERROR (CreateFailed err) w3
        end.

End Clone.

(** ** Generator-driven variant *)

Module Generator.

Inductive item_text : Type :=
| InvalidName
| PomsDetected
| Generating (projectName : jsstring)
| CheckFailed (e : error).

Record HistoryItem : Type := { item_type : MessageType; item_text_of : item_text }.

Record world : Type := {
  fs : node;
  ui : list HistoryItem
}.

Definition addItem (ty : MessageType) (tx : item_text) (w : world) : world :=
  {| fs := fs w; ui := {| item_type := ty; item_text_of := tx |} :: ui w |}.

(** The instruction documents, by the template they are built from; both
    mention the project name and the name without its hyphens. *)
Inductive prompt : Type :=
| RemainingFiles (projectName collapsed : jsstring)
| PomFiles (projectName collapsed : jsstring).

Inductive SlashCommandActionReturn : Type :=
| submit_prompt (content : prompt).

Definition collapsed (projectName : jsstring) : jsstring :=
  replace_global (Lit (lit "-")) [] projectName.

(** The probes of the source.  [existsSync] does not throw, which leaves
    the [catch] of the source without a use. *)
Definition allPomsExist (e : env) (t : node) (projectName : jsstring) : bool :=
  let projectDir := projectName ++ lit "-parent" in
  let rootPomExists := existsSync t (path_join (cwd e) [projectDir; lit "pom.xml"]) in
  rootPomExists
  && existsSync t (path_join (cwd e) [projectDir; projectName ++ lit "-app"; lit "pom.xml"])
  && existsSync t (path_join (cwd e) [projectDir; projectName ++ lit "-domain"; lit "pom.xml"])
  && existsSync t (path_join (cwd e) [projectDir; projectName ++ lit "-infrastructure"; lit "pom.xml"])
  && existsSync t (path_join (cwd e) [projectDir; projectName ++ lit "-common"; lit "pom.xml"])
  && existsSync t (path_join (cwd e) [projectDir; projectName ++ lit "-start"; lit "pom.xml"]).

Definition action (e : env) (args : jsstring) (w : world)
  : world * option SlashCommandActionReturn :=
  let projectName := trim args in
  if negb (validateProjectName projectName) then
    (addItem ERROR InvalidName w, None)
  else if allPomsExist e (fs w) projectName then
    (addItem INFO PomsDetected w,
     Some (submit_prompt (RemainingFiles projectName (collapsed projectName))))
  else
    (addItem INFO (Generating projectName) w,
     Some (submit_prompt (PomFiles projectName (collapsed projectName)))).

End Generator.

(* ================================================================= *)
(** * Part II - vocabulary of the statements *)
(* ================================================================= *)

(** ** Name grammar *)

(** The naming grammar in the words of the specification. *)
Definition allowed_unit (c : code_unit) : Prop :=
  lower c = true \/ digit c = true \/ c = hyphen.

Definition name_grammar (name : jsstring) : Prop :=
  Forall allowed_unit name
  /\ (exists c rest, name = c :: rest /\ lower c = true)
  /\ (forall rest, name <> hyphen :: rest)
  /\ (forall front, name <> front ++ [hyphen]).

(** The name grammar as a decision procedure that reads the name once. *)
Definition name_shape (name : jsstring) : bool :=
  match name with
  | [] => false
  | c :: rest =>
      lower c &&
      match rest with
      | [] => true
      | _ :: _ => forallb lower_digit_hyphen (removelast rest)
                  && lower_digit (last rest 0%N)
      end
  end.

(** ** Patterns that need a token

    [mentions tok r]: every text [r] matches has [tok] in it, read off
    the pattern. *)
Fixpoint mentions (tok : jsstring) (r : regex) : bool :=
  match r with
  | Lit l => includes tok l
  | Seq r1 r2 => mentions tok r1 || mentions tok r2
  | Alt r1 r2 => mentions tok r1 && mentions tok r2
  | Grp _ r1 => mentions tok r1
  | _ => false
  end.

(** ** Tokens of the rewriter *)

Definition sns_demo : jsstring := lit "sns-demo".
Definition namespace_demo : jsstring := lit "com.xiaohongshu.sns.demo".
Definition project_name_variable : jsstring := lit "<artifactId>${projectName}-".

(** Every pattern of the chain needs one of three tokens. *)
Definition trigger (r : regex) : bool :=
  mentions sns_demo r || mentions namespace_demo r
  || mentions project_name_variable r.

(** ** Text a match cannot reach into

    A text that begins with the code units [t0 t1] stops every match of
    a pattern in which no [t0] is followed by [t1] ([barrier_ok]); for a
    match that begins before the text, the first code unit of the
    pattern is free ([barrier_ok_head]). *)

Fixpoint lit_ok (t0 t1 : code_unit) (l : jsstring) : bool :=
  match l with
  | [] => true
  | a :: l' =>
      (negb (a =? t0)%N
       || match l' with
          | b :: _ => negb (b =? t1)%N
          | [] => false
          end)
      && lit_ok t0 t1 l'
  end.

Fixpoint barrier_ok (t0 t1 : code_unit) (r : regex) : bool :=
  match r with
  | Lit l => lit_ok t0 t1 l
  | Cls p | Star p | Plus p => negb (p t0)
  | Seq r1 r2 | Alt r1 r2 => barrier_ok t0 t1 r1 && barrier_ok t0 t1 r2
  | Grp _ r1 => barrier_ok t0 t1 r1
  | Bol | Eol => false
  end.

Definition barrier_ok_head (t0 t1 : code_unit) (r : regex) : bool :=
  match r with
  | Lit (_ :: l) => lit_ok t0 t1 l
  | Seq (Lit (_ :: l)) r2 => lit_ok t0 t1 l && barrier_ok t0 t1 r2
  | _ => false
  end.

Fixpoint bol_free (r : regex) : bool :=
  match r with
  | Seq r1 r2 | Alt r1 r2 => bol_free r1 && bol_free r2
  | Grp _ r1 => bol_free r1
  | Bol => false
  | _ => true
  end.

(** The result of a match on [u], seen on [u ++ w]. *)
Definition lift_rest (w : jsstring) (o : option (jsstring * captures))
  : option (jsstring * captures) :=
  match o with
  | Some (rest, c) => Some (rest ++ w, c)
  | None => None
  end.

Definition agree (w : jsstring) (k k' : cont) : Prop :=
  forall v c, k (v ++ w) c = lift_rest w (k' v c).

Fixpoint nonempty_tails (l : jsstring) : list jsstring :=
  match l with
  | [] => []
  | a :: l' => (a :: l') :: nonempty_tails l'
  end.

(** A template whose expansion reads neither the text before the match
    nor the text after it. *)
Definition context_free (template : jsstring) : Prop :=
  forall matched before after before' after' caps,
    get_substitution matched before after caps template
    = get_substitution matched before' after' caps template.

(** [ru] leaves the text [T] alone, and what stands before and after
    [T] is rewritten as if [T] were not there. *)
Definition passes (T : jsstring) (ru : rule) : Prop :=
  barrier_ok_head less_than 97%N (fst ru) = true
  /\ bol_free (fst ru) = true
  /\ match_at (fst ru) 0 [] = None
  /\ context_free (snd ru)
  /\ forall post tot,
       Forall (fun t2 => match_at (fst ru) tot (t2 ++ post) = None)
         (nonempty_tails T).

(** The declaration of the claim on structural precedence, before and
    after the rewriting. *)
Definition demo_app_declaration : jsstring :=
  lit "<artifactId>sns-demo-app</artifactId>".
Definition zoo_app_declaration : jsstring :=
  lit "<artifactId>zoo-app</artifactId>".

Definition zoo : jsstring := lit "zoo".

(** The third call of the chain under the target ["zoo"]. *)
Definition suffixed_artifact_rule : rule :=
  (suffixed "<artifactId>sns-demo-" "</artifactId>",
   lit "<artifactId>" ++ zoo ++ lit "-$1</artifactId>").

(** ** Trees *)

(** Induction on a tree, with the property for every entry of a
    directory. *)
Fixpoint node_ind (P : node -> Prop)
    (HFile : forall c, P (File c))
    (HDir : forall es, Forall (fun e => P (snd e)) es -> P (Dir es))
    (HOther : P Other) (t : node) {struct t} : P t :=
  match t with
  | File c => HFile c
  | Dir es =>
      HDir es
        ((fix entries (l : list (jsstring * node)) : Forall (fun e => P (snd e)) l :=
            match l with
            | [] => Forall_nil _
            | e :: l' =>
                Forall_cons e (node_ind P HFile HDir HOther (snd e)) (entries l')
            end) es)
  | Other => HOther
  end.

(** The tree put at [p]: the entry is replaced where it stands, or added
    at the end of its directory; directories missing on the way are
    created. *)
Fixpoint graft (p : path) (v : node) (t : node) : node :=
  match p with
  | [] => v
  | n :: p' =>
      match t with
      | Dir es =>
          Dir (set_entry n
                 (graft p' v
                    (match find_entry n es with
                     | Some u => u
                     | None => Dir []
                     end)) es)
      | _ => t
      end
  end.

(** The two paths part ways at some segment: neither leads to the
    other. *)
Definition diverge (a b : path) : Prop :=
  exists c x a' y b', a = c ++ x :: a' /\ b = c ++ y :: b' /\ x <> y.

Fixpoint is_prefix (a b : path) : bool :=
  match a, b with
  | [], _ => true
  | x :: a', y :: b' => str_eqb x y && is_prefix a' b'
  | _ :: _, [] => false
  end.

(** Regular files and directories of a tree (the tree itself counts). *)
Fixpoint count_files (t : node) : nat :=
  match t with
  | File _ => 1
  | Dir es =>
      (fix entries (l : list (jsstring * node)) : nat :=
         match l with
         | [] => 0
         | e :: l' => count_files (snd e) + entries l'
         end) es
  | Other => 0
  end.

Fixpoint count_dirs (t : node) : nat :=
  match t with
  | File _ => 0
  | Dir es =>
      S ((fix entries (l : list (jsstring * node)) : nat :=
            match l with
            | [] => 0
            | e :: l' => count_dirs (snd e) + entries l'
            end) es)
  | Other => 0
  end.

Fixpoint height (t : node) : nat :=
  match t with
  | Dir es =>
      S ((fix entries (l : list (jsstring * node)) : nat :=
            match l with
            | [] => 0
            | e :: l' => Nat.max (height (snd e)) (entries l')
            end) es)
  | _ => 0
  end.

Definition is_other (t : node) : bool :=
  match t with
  | Other => true
  | _ => false
  end.

(** What the cloner is to produce from a template: every regular file
    with its content rewritten, every directory with its regular files
    and directories under their new names, in the same order. *)
Fixpoint cloned (oldName newName : jsstring) (t : node) : node :=
  match t with
  | File c => File (replaceProjectNames c oldName newName)
  | Dir es =>
      Dir ((fix entries (l : list (jsstring * node)) : list (jsstring * node) :=
              match l with
              | [] => []
              | e :: l' =>
                  if is_other (snd e) then entries l'
                  else (destItemName (fst e) newName,
                        cloned oldName newName (snd e)) :: entries l'
              end) es)
  | Other => Other
  end.

Definition cloned_entries (oldName newName : jsstring)
    (l : list (jsstring * node)) : list (jsstring * node) :=
  map (fun e => (destItemName (fst e) newName, cloned oldName newName (snd e)))
    (filter (fun e => negb (is_other (snd e))) l).

Fixpoint distinct (l : list jsstring) : bool :=
  match l with
  | [] => true
  | n :: l' => negb (existsb (str_eqb n) l') && distinct l'
  end.

(** The names of a tree are names of entries, and no directory holds a
    name twice. *)
Fixpoint names_ok (t : node) : bool :=
  match t with
  | Dir es =>
      forallb segment_ok (map fst es) && distinct (map fst es)
      && (fix entries (l : list (jsstring * node)) : bool :=
            match l with
            | [] => true
            | e :: l' => names_ok (snd e) && entries l'
            end) es
  | _ => true
  end.

(** No directory of the tree has two regular files or directories that
    the renaming sends to one name. *)
Fixpoint rename_distinct (newName : jsstring) (t : node) : bool :=
  match t with
  | Dir es =>
      distinct (map (fun e => destItemName (fst e) newName)
                  (filter (fun e => negb (is_other (snd e))) es))
      && (fix entries (l : list (jsstring * node)) : bool :=
            match l with
            | [] => true
            | e :: l' => rename_distinct newName (snd e) && entries l'
            end) es
  | _ => true
  end.

(** The place of a new entry: the directory [par] exists and has no
    entry [seg]. *)
Definition free_slot (dst : path) (root : node) : Prop :=
  exists par seg D,
    dst = par ++ [seg] /\ lookup par root = Some (Dir D)
    /\ find_entry seg D = None.

(** ** Descriptor files of the generator-driven variant *)

Definition module_names : list jsstring :=
  [lit "app"; lit "domain"; lit "infrastructure"; lit "common"; lit "start"].

(** The root descriptor and one descriptor for each module. *)
Definition descriptor_paths (e : env) (projectName : jsstring) : list path :=
  path_join (cwd e) [projectName ++ lit "-parent"; lit "pom.xml"]
  :: map (fun m =>
            path_join (cwd e)
              [projectName ++ lit "-parent"; projectName ++ lit "-" ++ m;
               lit "pom.xml"])
       module_names.

(** The three files of the second phase. *)
Definition non_descriptor_paths (e : env) (projectName : jsstring) : list path :=
  [ path_join (cwd e)
      [projectName ++ lit "-parent"; projectName ++ lit "-start"; lit "src";
       lit "main"; lit "java"; lit "com"; lit "xiaohongshu"; lit "sns";
       Generator.collapsed projectName; lit "start"; lit "Application.java"];
    path_join (cwd e) [projectName ++ lit "-parent"; lit "README.md"];
    path_join (cwd e) [projectName ++ lit "-parent"; lit ".gitignore"] ].

(** [t'] is [t] but for what stands at [dst]. *)
Definition within (dst : path) (t t' : node) : Prop :=
  t' = t \/ exists X, names_ok X = true /\ t' = graft dst X t.

(* ================================================================= *)
(** * Part III - properties *)
(* ================================================================= *)

(** ** The matcher *)

Lemma match_lit_app (l s : jsstring) : match_lit l (l ++ s) = Some s.
Proof.
  induction l as [|a l IH]; simpl; [reflexivity|].
  now rewrite N.eqb_refl.
Qed.

Lemma match_lit_inv (l s s' : jsstring) :
  match_lit l s = Some s' -> s = l ++ s'.
Proof.
  revert s; induction l as [|a l IH]; intros [|x s]; simpl; intros H;
    try discriminate; try (now inversion H).
  destruct (N.eqb_spec a x); [subst|discriminate].
  f_equal. now apply IH.
Qed.

(** The greedy star succeeds exactly when some split of the input lets
    the continuation succeed. *)
Lemma match_star_succeeds (p : code_unit -> bool) (s : jsstring)
    (c : captures) (k : cont) :
  match_star p s c k <> None <->
  exists X s', s = X ++ s' /\ forallb p X = true /\ k s' c <> None.
Proof.
  split.
  - induction s as [|x s IH]; simpl; intros H.
    + exists [], []; auto.
    + destruct (p x) eqn:Hp.
      * destruct (match_star p s c k) as [res|] eqn:Hm.
        -- destruct IH as (X & s' & -> & HX & Hk); [discriminate|].
           exists (x :: X), s'; simpl; rewrite Hp; auto.
        -- exists [], (x :: s); auto.
      * exists [], (x :: s); auto.
  - intros (X & s' & -> & HX & Hk).
    induction X as [|x X IH]; simpl in *.
    + destruct s' as [|y s']; simpl; [assumption|].
      destruct (p y); [|assumption].
      destruct (match_star p s' c k); [discriminate|assumption].
    + apply andb_true_iff in HX as [Hp HX]. rewrite Hp.
      specialize (IH HX).
      destruct (match_star p (X ++ s') c k); [discriminate|contradiction].
Qed.

(** ** Name validator *)

(** A pattern that begins with [^] matches at the first position only. *)
Lemma name_pattern_later (total : nat) (s : jsstring) :
  length s < total -> test_from name_pattern total s = false.
Proof.
  induction s as [|x s IH]; intros Hlen.
  - unfold test_from, match_at; simpl in *.
    destruct total; [lia|reflexivity].
  - cbn [test_from]. unfold match_at; cbn [rmatch name_pattern].
    replace (length (x :: s) =? total) with false
      by (symmetry; apply Nat.eqb_neq; lia).
    apply IH. simpl in Hlen; lia.
Qed.

Lemma validate_shape (name : jsstring) :
  validateProjectName name = name_shape name.
Proof.
  unfold validateProjectName, regexp_test.
  destruct name as [|c rest].
  - reflexivity.
  - cbn [test_from].
    rewrite name_pattern_later by (simpl; lia).
    unfold match_at; cbn [rmatch name_pattern group_count repeat Nat.add].
    rewrite Nat.eqb_refl. cbn [name_shape].
    destruct (lower c); [|reflexivity]. cbn [andb].
    match goal with |- context [match_star _ _ _ ?K] => set (k := K) end.
    assert (Hk : forall s', k s' [] <> None <->
                   exists x, s' = [x] /\ lower_digit x = true).
    { intros [|x [|y s']]; unfold k; split.
      - congruence.
      - intros (x & H & _); discriminate.
      - destruct (lower_digit x) eqn:Hx; [|congruence]. intros _; eauto.
      - intros (x' & H & Hx); inversion H; subst. rewrite Hx; discriminate.
      - destruct (lower_digit x); congruence.
      - intros (x' & H & _); discriminate. }
    destruct rest as [|y rest'].
    + reflexivity.
    + set (rest := y :: rest').
      destruct (forallb lower_digit_hyphen (removelast rest)
                && lower_digit (last rest 0%N)) eqn:Hshape.
      * apply andb_true_iff in Hshape as [Hall Hlast].
        assert (Hs : match_star lower_digit_hyphen rest [] k <> None).
        { apply match_star_succeeds.
          exists (removelast rest), [last rest 0%N]. split; [|split].
          - apply app_removelast_last. discriminate.
          - assumption.
          - apply Hk. eauto. }
        destruct (match_star lower_digit_hyphen rest [] k); [reflexivity|congruence].
      * destruct (match_star lower_digit_hyphen rest [] k) eqn:Hm.
        -- exfalso.
           assert (Hs : match_star lower_digit_hyphen rest [] k <> None)
             by (rewrite Hm; discriminate).
           apply match_star_succeeds in Hs as (X & s' & Hrest & HX & Hks).
           apply Hk in Hks as (x & -> & Hx).
           rewrite Hrest, removelast_last, last_last, HX, Hx in Hshape.
           discriminate.
        -- reflexivity.
Qed.

Lemma allowed_unit_class (c : code_unit) :
  allowed_unit c <-> lower_digit_hyphen c = true.
Proof.
  unfold allowed_unit, lower_digit_hyphen.
  rewrite !orb_true_iff, N.eqb_eq. tauto.
Qed.

Lemma lower_digit_not_hyphen (c : code_unit) :
  lower_digit c = true <-> allowed_unit c /\ c <> hyphen.
Proof.
  unfold allowed_unit, lower_digit, lower, digit, in_range, hyphen.
  rewrite orb_true_iff, !andb_true_iff, !N.leb_le. lia.
Qed.

Lemma name_shape_grammar (name : jsstring) :
  name_shape name = true <-> name_grammar name.
Proof.
  unfold name_grammar. destruct name as [|c rest]; simpl.
  - split; [discriminate|]. intros (_ & (c & rest & H & _) & _). discriminate.
  - rewrite andb_true_iff. split.
    + intros [Hc Hrest].
      assert (Hch : c <> hyphen).
      { intros ->. discriminate. }
      assert (Hca : allowed_unit c) by (left; assumption).
      destruct rest as [|y rest'].
      * repeat split.
        -- constructor; [assumption|constructor].
        -- eauto.
        -- intros rest H. inversion H. contradiction.
        -- intros [|a [|b front]] H; inversion H; try contradiction.
      * set (rest := y :: rest') in *.
        apply andb_true_iff in Hrest as [Hall Hlast].
        apply lower_digit_not_hyphen in Hlast as [Hla Hlh].
        assert (Hsplit : rest = removelast rest ++ [last rest 0%N])
          by (apply app_removelast_last; discriminate).
        repeat split.
        -- constructor; [assumption|]. rewrite Hsplit.
           apply Forall_app. split.
           ++ apply Forall_forall. intros a Ha. apply allowed_unit_class.
              rewrite forallb_forall in Hall. now apply Hall.
           ++ constructor; [assumption|constructor].
        -- eauto.
        -- intros r H. inversion H. contradiction.
        -- intros front H. rewrite Hsplit, app_comm_cons in H.
           apply app_inj_tail in H as [_ H]. contradiction.
    + intros (Hall & (c' & rest0 & Heq & Hc) & Hstart & Hend).
      inversion Heq; subst c' rest0. split; [assumption|].
      destruct rest as [|y rest']; [reflexivity|].
      set (rest := y :: rest') in *.
      assert (Hsplit : rest = removelast rest ++ [last rest 0%N])
        by (apply app_removelast_last; discriminate).
      inversion Hall as [|? ? _ Hall']; subst.
      rewrite Hsplit in Hall'. apply Forall_app in Hall' as [Hfront Hlast].
      apply andb_true_iff. split.
      * apply forallb_forall. intros a Ha. apply allowed_unit_class.
        rewrite Forall_forall in Hfront. now apply Hfront.
      * apply lower_digit_not_hyphen. split.
        -- now inversion Hlast.
        -- intros Hh. apply (Hend (c :: removelast rest)).
           rewrite <- Hh. simpl. f_equal. exact Hsplit.
Qed.

Lemma name_shape_forall (name : jsstring) :
  name_shape name = true -> forallb lower_digit_hyphen name = true.
Proof.
  intros H. apply name_shape_grammar in H as (Hall & _).
  apply forallb_forall. intros a Ha. apply allowed_unit_class.
  rewrite Forall_forall in Hall. now apply Hall.
Qed.

(** C8.  [validateProjectName] accepts exactly the names of the grammar:
    lowercase ASCII letters, digits and hyphens, a letter first, no
    hyphen first or last.  The empty string, a name with an uppercase
    letter, an underscore or any other code unit, and a name with a
    leading digit are refused; ["my-app2"] and ["a"] are accepted,
    ["-bad"] and ["Bad"] are refused. *)
Theorem validateProjectName_grammar :
  (forall name, validateProjectName name = true <-> name_grammar name)
  /\ validateProjectName [] = false
  /\ (forall name c, In c name ->
        upper c = true \/ c = underscore \/ ~ allowed_unit c ->
        validateProjectName name = false)
  /\ (forall c rest, digit c = true -> validateProjectName (c :: rest) = false)
  /\ validateProjectName (lit "my-app2") = true
  /\ validateProjectName (lit "-bad") = false
  /\ validateProjectName (lit "Bad") = false
  /\ validateProjectName (lit "a") = true.
Proof.
  assert (Hiff : forall name, validateProjectName name = true <-> name_grammar name).
  { intros name. rewrite validate_shape. apply name_shape_grammar. }
  split; [exact Hiff|].
  split; [reflexivity|].
  split.
  { intros name c Hin Hbad.
    destruct (validateProjectName name) eqn:Hv; [exfalso|reflexivity].
    apply Hiff in Hv as (Hall & _).
    rewrite Forall_forall in Hall. specialize (Hall c Hin).
    destruct Hbad as [Hu|[Hu|Hn]]; [| |contradiction].
    - unfold allowed_unit, upper, lower, digit, in_range, hyphen in *.
      rewrite !andb_true_iff, !N.leb_le in *. lia.
    - unfold allowed_unit, lower, digit, in_range, hyphen, underscore in *.
      rewrite !andb_true_iff, !N.leb_le in *. lia. }
  split.
  { intros c rest Hd. rewrite validate_shape. simpl.
    replace (lower c) with false; [reflexivity|].
    unfold lower, digit, in_range in *.
    rewrite andb_true_iff, !N.leb_le in Hd.
    symmetry. apply andb_false_iff. rewrite !N.leb_gt. lia. }
  repeat split; reflexivity.
Qed.

Lemma validateProjectName_grammar_witness :
  name_grammar (lit "my-app2") /\ validateProjectName (lit "Bad") = false.
Proof.
  split.
  - apply (proj1 validateProjectName_grammar). reflexivity.
  - apply (proj1 (proj2 (proj2 validateProjectName_grammar)) (lit "Bad") 66%N).
    + simpl. auto.
    + left. reflexivity.
Defined.

(** ** Occurrences *)

Lemma starts_with_spec (needle s : jsstring) :
  starts_with needle s = true <-> exists b, s = needle ++ b.
Proof.
  revert s; induction needle as [|a needle IH]; intros s; simpl.
  - split; eauto.
  - destruct s as [|x s].
    + split; [discriminate|]. intros (b & H); discriminate.
    + rewrite andb_true_iff, N.eqb_eq, IH. split.
      * intros (-> & b & ->). eauto.
      * intros (b & H). inversion H; subst. eauto.
Qed.

Lemma includes_spec (needle s : jsstring) :
  includes needle s = true <-> exists a b, s = a ++ needle ++ b.
Proof.
  induction s as [|x s IH]; simpl.
  - rewrite orb_false_r, starts_with_spec. split.
    + intros (b & H). exists [], b. exact H.
    + intros (a & b & H). destruct a; [eauto|discriminate].
  - rewrite orb_true_iff, starts_with_spec, IH. split.
    + intros [(b & H)|(a & b & H)].
      * exists [], b. exact H.
      * exists (x :: a), b. simpl. now f_equal.
    + intros (a & b & H). destruct a as [|y a]; simpl in H.
      * left. eauto.
      * right. inversion H; subst. eauto.
Qed.

Lemma includes_app_false (needle a s : jsstring) :
  includes needle (a ++ s) = false -> includes needle s = false.
Proof.
  intros H. destruct (includes needle s) eqn:Hs; [|reflexivity].
  apply includes_spec in Hs as (x & y & ->).
  rewrite <- H. symmetry. apply includes_spec.
  exists (a ++ x), y. now rewrite <- app_assoc.
Qed.

(** ** What a match consumes *)

(** The continuation of a successful match was called on a suffix of the
    input. *)
Lemma match_star_cont (p : code_unit -> bool) (s : jsstring) (c : captures)
    (k : cont) (res : jsstring * captures) :
  match_star p s c k = Some res ->
  exists x s', s = x ++ s' /\ k s' c = Some res.
Proof.
  induction s as [|a s IH]; simpl; intros H.
  - exists [], []. auto.
  - destruct (p a).
    + destruct (match_star p s c k) as [res'|] eqn:Hm.
      * inversion H; subst res'.
        destruct (IH eq_refl) as (x & s' & -> & Hk).
        exists (a :: x), s'. auto.
      * exists [], (a :: s). auto.
    + exists [], (a :: s). auto.
Qed.

Lemma rmatch_cont (r : regex) (total : nat) (s : jsstring) (c : captures)
    (k : cont) (res : jsstring * captures) :
  rmatch r total s c k = Some res ->
  exists x s' c', s = x ++ s' /\ k s' c' = Some res.
Proof.
  revert s c k. induction r as [l|p|p|p|r1 IH1 r2 IH2|r1 IH1 r2 IH2|i r1 IH1| |];
    intros s c k; simpl; intros H.
  - destruct (match_lit l s) as [s'|] eqn:Hl; [|discriminate].
    apply match_lit_inv in Hl. eauto.
  - destruct s as [|a s]; [discriminate|].
    destruct (p a); [|discriminate]. exists [a], s, c. auto.
  - apply match_star_cont in H as (x & s' & -> & Hk). eauto.
  - destruct s as [|a s]; [discriminate|].
    destruct (p a); [|discriminate].
    apply match_star_cont in H as (x & s' & -> & Hk).
    exists (a :: x), s', c. auto.
  - apply IH1 in H as (x1 & s1 & c1 & -> & H).
    apply IH2 in H as (x2 & s2 & c2 & -> & H).
    exists (x1 ++ x2), s2, c2. now rewrite <- app_assoc.
  - destruct (rmatch r1 total s c k) as [res'|] eqn:H1.
    + inversion H; subst res'. now apply IH1 in H1.
    + now apply IH2 in H.
  - apply IH1 in H as (x1 & s1 & c1 & -> & H). eauto.
  - destruct (length s =? total); [|discriminate]. exists [], s, c. auto.
  - destruct s; [|discriminate]. exists [], [], c. auto.
Qed.

Lemma match_at_suffix (r : regex) (total : nat) (s rest : jsstring)
    (caps : captures) :
  match_at r total s = Some (rest, caps) -> exists m, s = m ++ rest.
Proof.
  unfold match_at. intros H.
  apply rmatch_cont in H as (x & s' & c' & -> & H).
  inversion H; subst. eauto.
Qed.

Lemma mentions_sound (tok : jsstring) (r : regex) :
  mentions tok r = true ->
  forall total s c k res,
    rmatch r total s c k = Some res -> includes tok s = true.
Proof.
  induction r as [l|p|p|p|r1 IH1 r2 IH2|r1 IH1 r2 IH2|i r1 IH1| |];
    simpl; intros Hm total s c k res H; try discriminate.
  - destruct (match_lit l s) as [s'|] eqn:Hl; [|discriminate].
    apply match_lit_inv in Hl. subst s.
    apply includes_spec in Hm as (a & b & ->).
    apply includes_spec. exists a, (b ++ s'). now rewrite <- !app_assoc.
  - apply orb_true_iff in Hm as [Hm|Hm].
    + eapply IH1; eauto.
    + apply rmatch_cont in H as (x & s' & c' & -> & H).
      apply (IH2 Hm) in H. apply includes_spec in H as (a & b & ->).
      apply includes_spec. exists (x ++ a), b. now rewrite <- app_assoc.
  - apply andb_true_iff in Hm as [Hm1 Hm2].
    destruct (rmatch r1 total s c k) eqn:H1.
    + eapply IH1; eauto.
    + eapply IH2; eauto.
  - eapply IH1; eauto.
Qed.

(** ** Global replacement: the scan *)

Lemma replace_from_no_token (tok : jsstring) (r : regex) (template : jsstring)
    (total : nat) (s before : jsstring) :
  mentions tok r = true ->
  includes tok s = false ->
  replace_from r template total before 0 s = s.
Proof.
  intros Hm. revert before. induction s as [|x s IH]; intros before Hs.
  - simpl. destruct (match_at r total []) as [[rest caps]|] eqn:H; [|reflexivity].
    apply (mentions_sound _ _ Hm) in H. congruence.
  - cbn [replace_from].
    destruct (match_at r total (x :: s)) as [[rest caps]|] eqn:H.
    + apply (mentions_sound _ _ Hm) in H. congruence.
    + f_equal. apply IH. now apply (includes_app_false _ [x]).
Qed.

Lemma replace_global_no_token (tok : jsstring) (r : regex) (template s : jsstring) :
  mentions tok r = true ->
  includes tok s = false ->
  replace_global r template s = s.
Proof. intros. unfold replace_global. eapply replace_from_no_token; eauto. Qed.

(** ** Token rewriter *)

Lemma rules_trigger (newName : jsstring) :
  forallb (fun ru => trigger (fst ru)) (rules newName) = true.
Proof. reflexivity. Qed.

Lemma replaceProjectNames_no_trigger (content oldName newName : jsstring) :
  includes sns_demo content = false ->
  includes namespace_demo content = false ->
  includes project_name_variable content = false ->
  replaceProjectNames content oldName newName = content.
Proof.
  intros H1 H2 H3. unfold replaceProjectNames.
  pose proof (rules_trigger newName) as Hr.
  induction (rules newName) as [|[r t] l IH]; [reflexivity|].
  simpl in Hr. apply andb_true_iff in Hr as [Hr Hl].
  cbn [fold_left]. unfold apply_rule at 2. cbn [fst snd].
  replace (replace_global r t content) with content; [now apply IH|].
  symmetry. unfold trigger in Hr.
  apply orb_true_iff in Hr as [Hr|Hr]; [apply orb_true_iff in Hr as [Hr|Hr]|];
    eapply replace_global_no_token; eauto.
Qed.

(** *** Unfolding the scan *)

Lemma replace_from_skip (r : regex) (template : jsstring) (total : nat)
    (x s before : jsstring) :
  replace_from r template total before (length x) (x ++ s)
  = replace_from r template total (before ++ x) 0 s.
Proof.
  revert before. induction x as [|a x IH]; intros before; simpl.
  - now rewrite app_nil_r.
  - rewrite IH. now rewrite <- app_assoc.
Qed.

Lemma consumed_length (m rest : jsstring) :
  length (m ++ rest) - length rest = length m.
Proof. rewrite length_app. lia. Qed.

Lemma consumed_text (m rest : jsstring) :
  firstn (length (m ++ rest) - length rest) (m ++ rest) = m.
Proof.
  rewrite consumed_length, firstn_app, Nat.sub_diag, firstn_all, firstn_O.
  apply app_nil_r.
Qed.

Lemma replace_from_match (r : regex) (template : jsstring) (total : nat)
    (before m rest : jsstring) (caps : captures) :
  m <> [] ->
  match_at r total (m ++ rest) = Some (rest, caps) ->
  replace_from r template total before 0 (m ++ rest)
  = get_substitution m before rest caps template
      ++ replace_from r template total (before ++ m) 0 rest.
Proof.
  intros Hm H. destruct m as [|a m]; [contradiction|].
  change ((a :: m) ++ rest) with (a :: (m ++ rest)) in *.
  cbn [replace_from]. rewrite H.
  change (a :: (m ++ rest)) with ((a :: m) ++ rest).
  rewrite consumed_text, consumed_length. cbn [length].
  rewrite replace_from_skip. now rewrite <- app_assoc.
Qed.

Lemma replace_from_no_match (r : regex) (template : jsstring) (total : nat)
    (before : jsstring) (a : code_unit) (s : jsstring) :
  match_at r total (a :: s) = None ->
  replace_from r template total before 0 (a :: s)
  = a :: replace_from r template total (before ++ [a]) 0 s.
Proof. intros H. cbn [replace_from]. now rewrite H. Qed.

Lemma match_at_lit (l : jsstring) (total : nat) (s : jsstring) :
  match_at (Lit l) total s
  = match match_lit l s with
    | Some s' => Some (s', [])
    | None => None
    end.
Proof. reflexivity. Qed.

Lemma match_lit_starts_with (l s : jsstring) :
  starts_with l s = true <-> exists s', match_lit l s = Some s'.
Proof.
  rewrite starts_with_spec. split.
  - intros (b & ->). rewrite match_lit_app. eauto.
  - intros (s' & H). apply match_lit_inv in H. eauto.
Qed.

(** A template without [$] stands for itself. *)
Lemma get_substitution_plain (matched before after : jsstring) (caps : captures)
    (t : jsstring) :
  forallb (fun c => negb (c =? dollar)%N) t = true ->
  get_substitution matched before after caps t = t.
Proof.
  induction t as [|c t IH]; simpl; [reflexivity|].
  intros H. apply andb_true_iff in H as [Hc Ht].
  rewrite Hc. f_equal. auto.
Qed.

(** *** No occurrence is left behind

    Replacing a literal [p0 :: P'] by a template [z :: t'] that stands
    for itself, where [z] is not in the literal and [p0] is not in the
    template, leaves no occurrence of the literal. *)
Section NoResidual.

Variables (p0 : code_unit) (P' : jsstring) (z : code_unit) (t' : jsstring).
Let P := p0 :: P'.
Let t := z :: t'.
Hypothesis t_plain : forallb (fun c => negb (c =? dollar)%N) t = true.
Hypothesis z_fresh : forallb (fun c => negb (c =? z)%N) P = true.
Hypothesis p0_fresh : forallb (fun c => negb (c =? p0)%N) t = true.

Let out (total : nat) (before s : jsstring) : jsstring :=
  replace_from (Lit P) t total before 0 s.

Lemma out_cases (total : nat) (before s : jsstring) :
  (s = [] /\ out total before s = [])
  \/ (exists rest, s = P ++ rest
        /\ out total before s = t ++ out total (before ++ P) rest)
  \/ (exists a s', s = a :: s' /\ starts_with P s = false
        /\ out total before s = a :: out total (before ++ [a]) s').
Proof.
  destruct s as [|a s']; [left; auto|right].
  destruct (match_lit P (a :: s')) as [rest|] eqn:Hl.
  - left. exists rest. pose proof (match_lit_inv _ _ _ Hl) as Hs.
    split; [assumption|]. unfold out. rewrite Hs.
    rewrite replace_from_match with (caps := []).
    + now rewrite get_substitution_plain.
    + discriminate.
    + now rewrite match_at_lit, match_lit_app.
  - right. exists a, s'. repeat split.
    + destruct (starts_with P (a :: s')) eqn:Hsw; [|reflexivity].
      apply match_lit_starts_with in Hsw as (x & Hx). congruence.
    + unfold out. apply replace_from_no_match.
      now rewrite match_at_lit, Hl.
Qed.

Lemma starts_with_out (q : jsstring) :
  (exists p, P = p ++ q) ->
  forall total before s,
    starts_with q (out total before s) = true -> starts_with q s = true.
Proof.
  induction q as [|c q IH]; intros Hq total before s H; [reflexivity|].
  destruct (out_cases total before s)
    as [(-> & Ho)|[(rest & -> & Ho)|(a & s' & -> & _ & Ho)]];
    rewrite Ho in H.
  - discriminate.
  - exfalso. simpl in H. apply andb_true_iff in H as [Hc _].
    apply N.eqb_eq in Hc. subst c.
    destruct Hq as (p & Hp).
    rewrite forallb_forall in z_fresh.
    assert (Hin : In z P) by (rewrite Hp; apply in_or_app; right; left; reflexivity).
    specialize (z_fresh _ Hin). rewrite N.eqb_refl in z_fresh. discriminate.
  - simpl in H |- *. apply andb_true_iff in H as [Hc H]. rewrite Hc. simpl.
    eapply IH; eauto.
    destruct Hq as (p & Hp). exists (p ++ [c]). now rewrite <- app_assoc.
Qed.

Lemma out_not_starting (total : nat) (before s : jsstring) :
  starts_with P (out total before s) = false.
Proof.
  destruct (starts_with P (out total before s)) eqn:H; [exfalso|reflexivity].
  pose proof H as H'.
  apply starts_with_out in H'; [|exists []; reflexivity].
  destruct (out_cases total before s)
    as [(-> & Ho)|[(rest & -> & Ho)|(a & s' & -> & Hn & Ho)]].
  - discriminate.
  - rewrite Ho in H. simpl in H. apply andb_true_iff in H as [Hc _].
    simpl in z_fresh. apply andb_true_iff in z_fresh as [Hz _].
    rewrite Hc in Hz. discriminate.
  - congruence.
Qed.

Lemma includes_after_template (w : jsstring) (u : jsstring) :
  forallb (fun c => negb (c =? p0)%N) u = true ->
  includes P w = false -> includes P (u ++ w) = false.
Proof.
  induction u as [|c u IH]; intros Hu Hw; [assumption|].
  simpl in Hu. apply andb_true_iff in Hu as [Hc Hu].
  cbn [app includes]. rewrite (IH Hu Hw), orb_false_r.
  simpl. rewrite N.eqb_sym. apply negb_true_iff in Hc. now rewrite Hc.
Qed.

Lemma out_no_residual (total : nat) (s before : jsstring) :
  includes P (out total before s) = false.
Proof.
  remember (length s) as n eqn:Hn.
  revert s before Hn. induction n as [n IH] using lt_wf_ind.
  intros s before Hn.
  destruct (out_cases total before s)
    as [(-> & Ho)|[(rest & -> & Ho)|(a & s' & -> & _ & Ho)]].
  - rewrite Ho. reflexivity.
  - rewrite Ho. apply includes_after_template; [exact p0_fresh|].
    apply (IH (length rest)); [|reflexivity].
    subst n. rewrite length_app. simpl. lia.
  - pose proof (out_not_starting total before (a :: s')) as Hs.
    rewrite Ho in Hs |- *. cbn [includes]. rewrite Hs. simpl.
    apply (IH (length s')); [|reflexivity]. subst n. simpl. lia.
Qed.

End NoResidual.

(** ** Text a match cannot reach into *)

Lemma match_lit_barrier (t0 t1 : code_unit) (w' l u : jsstring) :
  lit_ok t0 t1 l = true ->
  match_lit l (u ++ t0 :: t1 :: w')
  = option_map (fun rest => rest ++ t0 :: t1 :: w') (match_lit l u).
Proof.
  revert u. induction l as [|a l IH]; intros u Hok; [reflexivity|].
  cbn [lit_ok] in Hok. apply andb_true_iff in Hok as [Ha Hl].
  destruct u as [|x u]; cbn [app match_lit option_map].
  - destruct (N.eqb_spec a t0) as [->|Hne]; [|reflexivity].
    simpl in Ha.
    destruct l as [|b l]; [discriminate|].
    cbn [match_lit]. apply negb_true_iff in Ha. now rewrite Ha.
  - destruct (a =? x)%N; [|reflexivity]. now apply IH.
Qed.

Lemma match_star_barrier (t0 t1 : code_unit) (w' : jsstring)
    (p : code_unit -> bool) (k k' : cont) :
  p t0 = false ->
  agree (t0 :: t1 :: w') k k' ->
  forall u c,
    match_star p (u ++ t0 :: t1 :: w') c k
    = lift_rest (t0 :: t1 :: w') (match_star p u c k').
Proof.
  intros Hp Hk u c. induction u as [|x u IH].
  - cbn [app match_star]. rewrite Hp. apply (Hk []).
  - cbn [app match_star]. destruct (p x).
    + rewrite IH. destruct (match_star p u c k') as [[rest c']|].
      * reflexivity.
      * apply (Hk (x :: u)).
    + apply (Hk (x :: u)).
Qed.

Lemma firstn_consumed_barrier (u v w : jsstring) :
  firstn (length (u ++ w) - length (v ++ w)) (u ++ w)
  = firstn (length u - length v) u.
Proof.
  rewrite !length_app.
  replace (length u + length w - (length v + length w))
    with (length u - length v) by lia.
  rewrite firstn_app.
  replace (length u - length v - length u) with 0 by lia.
  rewrite firstn_O. apply app_nil_r.
Qed.

Lemma barrier_sound (t0 t1 : code_unit) (w' : jsstring) (r : regex) :
  barrier_ok t0 t1 r = true ->
  forall tot tot' k k',
    agree (t0 :: t1 :: w') k k' ->
    forall u c,
      rmatch r tot (u ++ t0 :: t1 :: w') c k
      = lift_rest (t0 :: t1 :: w') (rmatch r tot' u c k').
Proof.
  set (w := t0 :: t1 :: w').
  induction r as [l|p|p|p|r1 IH1 r2 IH2|r1 IH1 r2 IH2|i r1 IH1| |];
    cbn [barrier_ok]; intros Hok tot tot' k k' Hk u c; try discriminate.
  - cbn [rmatch]. unfold w. rewrite match_lit_barrier by assumption.
    destruct (match_lit l u) as [rest|]; cbn [option_map]; [apply Hk|reflexivity].
  - apply negb_true_iff in Hok. cbn [rmatch].
    destruct u as [|x u]; cbn [app].
    + unfold w. now rewrite Hok.
    + destruct (p x); [apply Hk|reflexivity].
  - apply negb_true_iff in Hok. cbn [rmatch].
    now apply match_star_barrier.
  - apply negb_true_iff in Hok. cbn [rmatch].
    destruct u as [|x u]; cbn [app].
    + unfold w. now rewrite Hok.
    + destruct (p x); [|reflexivity]. now apply match_star_barrier.
  - apply andb_true_iff in Hok as [H1 H2]. cbn [rmatch].
    apply IH1; [assumption|]. intros v c'. now apply IH2.
  - apply andb_true_iff in Hok as [H1 H2]. cbn [rmatch].
    rewrite (IH1 H1 tot tot' k k' Hk).
    destruct (rmatch r1 tot' u c k') as [[rest c']|]; [reflexivity|].
    now apply IH2.
  - cbn [rmatch]. apply IH1; [assumption|].
    intros v c'. unfold w. rewrite firstn_consumed_barrier. apply Hk.
Qed.

Lemma agree_final (w : jsstring) :
  agree w (fun s' c' => Some (s', c')) (fun s' c' => Some (s', c')).
Proof. intros v c. reflexivity. Qed.

Lemma match_at_barrier (t0 t1 : code_unit) (w' : jsstring) (r : regex)
    (tot tot' : nat) (x : code_unit) (u : jsstring) :
  barrier_ok_head t0 t1 r = true ->
  match_at r tot (x :: u ++ t0 :: t1 :: w')
  = lift_rest (t0 :: t1 :: w') (match_at r tot' (x :: u)).
Proof.
  unfold match_at. generalize (repeat (@None jsstring) (group_count r)) as c.
  pose proof (agree_final (t0 :: t1 :: w')) as Hk. revert Hk.
  generalize (fun (s' : jsstring) (c' : captures) => Some (s', c')) as k.
  intros k Hk c Hok.
  destruct r as [[|a l]|p|p|p|r1 r2|r1 r2|i r1| |]; try discriminate.
  - cbn [barrier_ok_head] in Hok. cbn [rmatch match_lit].
    destruct (a =? x)%N; [|reflexivity].
    rewrite match_lit_barrier by assumption.
    destruct (match_lit l u); cbn [option_map]; [apply Hk|reflexivity].
  - destruct r1 as [[|a l]|p|p|p|r11 r12|r11 r12|i r11| |]; try discriminate.
    cbn [barrier_ok_head] in Hok. apply andb_true_iff in Hok as [Hl H2].
    cbn [rmatch match_lit].
    destruct (a =? x)%N; [|reflexivity].
    rewrite match_lit_barrier by assumption.
    destruct (match_lit l u); cbn [option_map]; [|reflexivity].
    now apply barrier_sound.
Qed.

(** Without [^] the length of the subject plays no part. *)
Lemma match_star_ext (p : code_unit -> bool) (k k' : cont) :
  (forall v c, k v c = k' v c) ->
  forall s c, match_star p s c k = match_star p s c k'.
Proof.
  intros Hk s c. induction s as [|x s IH]; simpl.
  - apply Hk.
  - destruct (p x); [|apply Hk]. rewrite IH.
    destruct (match_star p s c k'); [reflexivity|apply Hk].
Qed.

Lemma rmatch_total (r : regex) :
  bol_free r = true ->
  forall tot tot' k k',
    (forall v c, k v c = k' v c) ->
    forall s c, rmatch r tot s c k = rmatch r tot' s c k'.
Proof.
  induction r as [l|p|p|p|r1 IH1 r2 IH2|r1 IH1 r2 IH2|i r1 IH1| |];
    cbn [bol_free]; intros Hok tot tot' k k' Hk s c; try discriminate;
    cbn [rmatch].
  - destruct (match_lit l s); [apply Hk|reflexivity].
  - destruct s as [|x s]; [reflexivity|]. destruct (p x); [apply Hk|reflexivity].
  - now apply match_star_ext.
  - destruct s as [|x s]; [reflexivity|].
    destruct (p x); [|reflexivity]. now apply match_star_ext.
  - apply andb_true_iff in Hok as [H1 H2].
    apply IH1; [assumption|]. intros v c'. now apply IH2.
  - apply andb_true_iff in Hok as [H1 H2].
    rewrite (IH1 H1 tot tot' k k' Hk).
    destruct (rmatch r1 tot' s c k'); [reflexivity|]. now apply IH2.
  - apply IH1; [assumption|]. intros v c'. apply Hk.
  - destruct s; [apply Hk|reflexivity].
Qed.

Lemma match_at_total (r : regex) (tot tot' : nat) (s : jsstring) :
  bol_free r = true -> match_at r tot s = match_at r tot' s.
Proof. intros H. unfold match_at. now apply rmatch_total. Qed.

(** ** Replacement around a text no match reaches into *)

Section Around.

Variables (r : regex) (template : jsstring) (t0 t1 : code_unit).
Hypothesis r_head : barrier_ok_head t0 t1 r = true.
Hypothesis r_bol : bol_free r = true.
Hypothesis r_empty : match_at r 0 [] = None.
Hypothesis template_free : context_free template.

(** The part before the text is rewritten as if it stood alone. *)
Lemma replace_from_before (w' : jsstring) (tot tot' : nat) (u : jsstring) :
  forall before before' skip,
    skip <= length u ->
    replace_from r template tot before skip (u ++ t0 :: t1 :: w')
    = replace_from r template tot' before' skip u
        ++ replace_from r template tot (before ++ u) 0 (t0 :: t1 :: w').
Proof.
  induction u as [|x u IH]; intros before before' skip Hskip.
  - simpl in Hskip. replace skip with 0 by lia.
    cbn [app replace_from].
    rewrite (match_at_total r tot' 0 [] r_bol), r_empty.
    now rewrite app_nil_r.
  - destruct skip as [|skip].
    + cbn [app replace_from].
      rewrite (match_at_barrier t0 t1 w' r tot tot' x u r_head).
      destruct (match_at r tot' (x :: u)) as [[rest caps]|] eqn:Hm;
        cbn [lift_rest].
      * destruct (match_at_suffix _ _ _ _ _ Hm) as (m & Hs).
        set (w := t0 :: t1 :: w') in *.
        assert (Hn2 : length (x :: u) - length rest = length m)
          by (rewrite Hs; apply consumed_length).
        assert (Hn1 : length (x :: u ++ w) - length (rest ++ w) = length m).
        { change (x :: u ++ w) with ((x :: u) ++ w).
          rewrite Hs, <- app_assoc. apply consumed_length. }
        assert (Hf2 : firstn (length m) (x :: u) = m).
        { rewrite <- Hn2 at 1. rewrite Hs. apply consumed_text. }
        assert (Hf1 : firstn (length m) (x :: u ++ w) = m).
        { change (x :: u ++ w) with ((x :: u) ++ w).
          rewrite firstn_app, Hf2.
          replace (length m - length (x :: u)) with 0.
          - rewrite firstn_O. apply app_nil_r.
          - lia. }
        rewrite Hn1, Hn2, Hf1, Hf2.
        rewrite (template_free m before (rest ++ w) before' rest).
        rewrite <- app_assoc. f_equal.
        assert (Hlen : length m <= S (length u)) by (cbn [length] in Hn2; lia).
        destruct (length m) as [|n'].
        -- rewrite <- app_comm_cons. f_equal.
           rewrite (IH (before ++ [x]) (before' ++ [x]) 0) by lia.
           now rewrite <- app_assoc.
        -- rewrite (IH (before ++ [x]) (before' ++ [x]) n') by lia.
           now rewrite <- app_assoc.
      * rewrite <- app_comm_cons. f_equal.
        rewrite (IH (before ++ [x]) (before' ++ [x]) 0) by lia.
        now rewrite <- app_assoc.
    + cbn [app replace_from].
      rewrite (IH (before ++ [x]) (before' ++ [x]) skip) by (simpl in Hskip; lia).
      now rewrite <- app_assoc.
Qed.

(** The scan does not depend on what was read or on the length of the
    subject. *)
Lemma replace_from_context (tot tot' : nat) (s : jsstring) :
  forall before before' skip,
    replace_from r template tot before skip s
    = replace_from r template tot' before' skip s.
Proof.
  induction s as [|x s IH]; intros before before' skip.
  - destruct skip; [|reflexivity]. cbn [replace_from].
    rewrite (match_at_total r tot tot' [] r_bol).
    destruct (match_at r tot' []) as [[rest caps]|]; [|reflexivity].
    apply template_free.
  - destruct skip as [|skip]; cbn [replace_from]; [|apply IH].
    rewrite (match_at_total r tot tot' (x :: s) r_bol).
    destruct (match_at r tot' (x :: s)) as [[rest caps]|].
    + rewrite (template_free _ before rest before' rest). f_equal.
      destruct (length (x :: s) - length rest); [f_equal|]; apply IH.
    + f_equal. apply IH.
Qed.

(** A text none of whose positions starts a match is copied. *)
Lemma replace_from_through (T post : jsstring) (tot : nat) :
  Forall (fun t2 => match_at r tot (t2 ++ post) = None) (nonempty_tails T) ->
  forall before,
    replace_from r template tot before 0 (T ++ post)
    = T ++ replace_from r template tot (before ++ T) 0 post.
Proof.
  induction T as [|a T IH]; intros HT before.
  - simpl. now rewrite app_nil_r.
  - cbn [nonempty_tails] in HT. inversion HT as [|? ? Ha HT']; subst.
    cbn [app] in *. rewrite replace_from_no_match by assumption.
    rewrite IH by assumption. now rewrite <- app_assoc.
Qed.

Lemma replace_global_around (T2 pre post : jsstring) :
  (forall tot,
     Forall (fun t2 => match_at r tot (t2 ++ post) = None)
       (nonempty_tails (t0 :: t1 :: T2))) ->
  replace_global r template (pre ++ (t0 :: t1 :: T2) ++ post)
  = replace_global r template pre ++ (t0 :: t1 :: T2)
      ++ replace_global r template post.
Proof.
  intros HT. unfold replace_global.
  set (tot := length (pre ++ (t0 :: t1 :: T2) ++ post)).
  change ((t0 :: t1 :: T2) ++ post) with (t0 :: t1 :: (T2 ++ post)) at 1.
  rewrite (replace_from_before (T2 ++ post) tot (length pre) pre [] [] 0)
    by lia.
  f_equal.
  change (t0 :: t1 :: (T2 ++ post)) with ((t0 :: t1 :: T2) ++ post).
  rewrite replace_from_through by apply HT.
  f_equal. apply replace_from_context.
Qed.

(** A text that is one match, with a template that stands for [T']. *)
Lemma replace_global_at (T2 T' pre post : jsstring) (caps : captures) :
  (forall tot, match_at r tot ((t0 :: t1 :: T2) ++ post) = Some (post, caps)) ->
  (forall before after,
     get_substitution (t0 :: t1 :: T2) before after caps template = T') ->
  replace_global r template (pre ++ (t0 :: t1 :: T2) ++ post)
  = replace_global r template pre ++ T' ++ replace_global r template post.
Proof.
  intros Hm Ht. unfold replace_global.
  set (tot := length (pre ++ (t0 :: t1 :: T2) ++ post)).
  change ((t0 :: t1 :: T2) ++ post) with (t0 :: t1 :: (T2 ++ post)) at 1.
  rewrite (replace_from_before (T2 ++ post) tot (length pre) pre [] [] 0)
    by lia.
  f_equal.
  change (t0 :: t1 :: (T2 ++ post)) with ((t0 :: t1 :: T2) ++ post).
  rewrite (replace_from_match r template tot _ (t0 :: t1 :: T2) post caps);
    [|discriminate|apply Hm].
  rewrite Ht. f_equal. apply replace_from_context.
Qed.

End Around.

(** ** A declaration inside a content *)

Lemma passes_apply (T2 : jsstring) (ru : rule) (pre post : jsstring) :
  passes (less_than :: 97%N :: T2) ru ->
  apply_rule (pre ++ (less_than :: 97%N :: T2) ++ post) ru
  = apply_rule pre ru ++ (less_than :: 97%N :: T2) ++ apply_rule post ru.
Proof.
  intros (Hh & Hb & He & Hc & Ht). unfold apply_rule.
  apply replace_global_around; auto.
Qed.

Lemma passes_fold (T2 : jsstring) (l : list rule) :
  Forall (passes (less_than :: 97%N :: T2)) l ->
  forall pre post,
    fold_left apply_rule l (pre ++ (less_than :: 97%N :: T2) ++ post)
    = fold_left apply_rule l pre ++ (less_than :: 97%N :: T2)
        ++ fold_left apply_rule l post.
Proof.
  induction 1 as [|ru l Hru _ IH]; intros pre post; [reflexivity|].
  cbn [fold_left]. rewrite passes_apply by assumption. apply IH.
Qed.


(** ** Replacing a literal by a template without [$] *)

Section LitReplace.

Variables (p0 : code_unit) (P' : jsstring) (t : jsstring).
Let P := p0 :: P'.
Hypothesis t_plain : forallb (fun c => negb (c =? dollar)%N) t = true.

Lemma replace_lit_cases (total : nat) (before s : jsstring) :
  (s = [] /\ replace_from (Lit P) t total before 0 s = [])
  \/ (exists rest, s = P ++ rest
        /\ replace_from (Lit P) t total before 0 s
           = t ++ replace_from (Lit P) t total (before ++ P) 0 rest)
  \/ (exists a s', s = a :: s' /\ starts_with P s = false
        /\ replace_from (Lit P) t total before 0 s
           = a :: replace_from (Lit P) t total (before ++ [a]) 0 s').
Proof.
  destruct s as [|a s']; [left; auto|right].
  destruct (match_lit P (a :: s')) as [rest|] eqn:Hl.
  - left. exists rest. pose proof (match_lit_inv _ _ _ Hl) as Hs.
    split; [assumption|]. rewrite Hs.
    rewrite replace_from_match with (caps := []).
    + now rewrite get_substitution_plain.
    + discriminate.
    + now rewrite match_at_lit, match_lit_app.
  - right. exists a, s'. repeat split.
    + destruct (starts_with P (a :: s')) eqn:Hsw; [|reflexivity].
      apply match_lit_starts_with in Hsw as (x & Hx). congruence.
    + apply replace_from_no_match.
      now rewrite match_at_lit, Hl.
Qed.

(** Every code unit of the result comes from the subject or from the
    template. *)
Lemma replace_lit_forallb (f : code_unit -> bool) (total : nat) (s : jsstring) :
  forallb f t = true ->
  forall before,
    forallb f s = true ->
    forallb f (replace_from (Lit P) t total before 0 s) = true.
Proof.
  intros Ht. remember (length s) as k eqn:Hk. revert s Hk.
  induction k as [k IH] using lt_wf_ind. intros s Hk before Hs.
  destruct (replace_lit_cases total before s)
    as [(-> & Ho)|[(rest & -> & Ho)|(a & s' & -> & _ & Ho)]]; rewrite Ho.
  - reflexivity.
  - rewrite forallb_app in Hs. apply andb_true_iff in Hs as [_ Hrest].
    rewrite forallb_app. apply andb_true_iff. split; [exact Ht|].
    apply (IH (length rest)); [|reflexivity|assumption].
    subst k. rewrite length_app. simpl. lia.
  - simpl in Hs |- *. apply andb_true_iff in Hs as [Ha Hs']. rewrite Ha. simpl.
    apply (IH (length s')); [|reflexivity|assumption]. subst k. simpl. lia.
Qed.

End LitReplace.

(** ** The suffix rules *)

(** The greedy star takes a whole run of the class when what follows the
    run lets the continuation succeed. *)
Lemma match_star_run (p : code_unit -> bool) (X rest : jsstring)
    (c : captures) (k : cont) (res : jsstring * captures) :
  forallb p X = true ->
  match rest with [] => true | y :: _ => negb (p y) end = true ->
  k rest c = Some res ->
  match_star p (X ++ rest) c k = Some res.
Proof.
  intros HX Hrest Hk. induction X as [|x X IH]; cbn [app].
  - destruct rest as [|y rest]; cbn [match_star]; [assumption|].
    apply negb_true_iff in Hrest. now rewrite Hrest.
  - cbn [forallb] in HX. apply andb_true_iff in HX as [Hx HX].
    cbn [match_star]. rewrite Hx, (IH HX). reflexivity.
Qed.

(** [<tag>sns-demo-([^<]+)</tag>] on an opening tag, a text without [<]
    and the closing tag: the match ends behind the closing tag and the
    group holds the text. *)
Lemma match_at_suffixed (open_tag close_tag : string) (X post : jsstring)
    (tot : nat) :
  X <> [] ->
  forallb not_less_than X = true ->
  starts_with [less_than] (lit close_tag) = true ->
  match_at (suffixed open_tag close_tag) tot
    (lit open_tag ++ X ++ lit close_tag ++ post)
  = Some (post, [Some X]).
Proof.
  intros HX Hall Hclose. unfold match_at, suffixed.
  cbn [rmatch group_count repeat Nat.add]. rewrite match_lit_app.
  destruct X as [|x X]; [contradiction|].
  cbn [forallb] in Hall. apply andb_true_iff in Hall as [Hx Hall].
  cbn [app]. rewrite Hx.
  apply match_star_run; [assumption| |].
  - destruct (lit close_tag) as [|y l]; [discriminate|].
    cbn [app]. cbn [starts_with] in Hclose.
    apply andb_true_iff in Hclose as [Hclose _].
    apply N.eqb_eq in Hclose. subst y. reflexivity.
  - rewrite match_lit_app.
    change (x :: X ++ lit close_tag ++ post)
      with ((x :: X) ++ lit close_tag ++ post).
    rewrite consumed_text. reflexivity.
Qed.

(** ** A declaration inside a content *)

Ltac prove_passes :=
  unfold passes;
  split; [vm_compute; reflexivity|];
  split; [vm_compute; reflexivity|];
  split; [vm_compute; reflexivity|];
  split; [intros matched before after before' after' caps;
          vm_compute; reflexivity|];
  intros post tot; repeat (constructor; [vm_compute; reflexivity|]);
  constructor.

Lemma rules_zoo_split :
  rules zoo
  = firstn 2 (rules zoo) ++ [suffixed_artifact_rule] ++ skipn 3 (rules zoo).
Proof. reflexivity. Qed.

Lemma rules_before_pass :
  Forall (passes demo_app_declaration) (firstn 2 (rules zoo)).
Proof. repeat (constructor; [prove_passes|]). constructor. Qed.

Lemma rules_after_pass :
  Forall (passes zoo_app_declaration) (skipn 3 (rules zoo)).
Proof. repeat (constructor; [prove_passes|]). constructor. Qed.

Lemma rule_suffixed_artifact (pre post : jsstring) :
  apply_rule (pre ++ demo_app_declaration ++ post) suffixed_artifact_rule
  = apply_rule pre suffixed_artifact_rule
      ++ zoo_app_declaration
      ++ apply_rule post suffixed_artifact_rule.
Proof.
  unfold apply_rule, suffixed_artifact_rule. cbn [fst snd].
  apply (replace_global_at _ _ less_than 97%N) with (caps := [Some (lit "app")]).
  - vm_compute; reflexivity.
  - vm_compute; reflexivity.
  - vm_compute; reflexivity.
  - intros matched before after before' after' caps. vm_compute; reflexivity.
  - intros tot.
    change ((less_than :: 97%N :: _) ++ post)
      with (lit "<artifactId>sns-demo-" ++ lit "app" ++ lit "</artifactId>" ++ post).
    apply match_at_suffixed; [discriminate|reflexivity|reflexivity].
  - intros before after. vm_compute; reflexivity.
Qed.

(** ** The claims on the token rewriter *)

Lemma includes_trans (a b s : jsstring) :
  includes a b = true -> includes b s = true -> includes a s = true.
Proof.
  rewrite !includes_spec. intros (x & y & ->) (u & v & ->).
  exists (u ++ x), (y ++ v). now rewrite <- !app_assoc.
Qed.

Lemma includes_none (a b s : jsstring) :
  includes a b = true -> includes a s = false -> includes b s = false.
Proof.
  intros Hab Has. destruct (includes b s) eqn:Hbs; [|reflexivity].
  rewrite (includes_trans a b s Hab Hbs) in Has. discriminate.
Qed.

(** C1, as stated, fails: a content without ["demo"] (hence without
    ["sns-demo"]) that the rewriter changes. *)
Lemma rewrite_noop_counterexample :
  let content := lit "<artifactId>${projectName}-app</artifactId>" in
  includes (lit "demo") content = false
  /\ includes (lit "sns-demo") content = false
  /\ replaceProjectNames content (lit "demo") (lit "zoo")
     = lit "<artifactId>zoo-app</artifactId>"
  /\ replaceProjectNames content (lit "demo") (lit "zoo") <> content.
Proof. vm_compute. repeat split; try reflexivity. discriminate. Qed.

(** C1, amended.  A content in which none of the three tokens of the
    patterns occurs (["sns-demo"], ["com.xiaohongshu.sns.demo"],
    ["<artifactId>${projectName}-"]) is returned unchanged, whatever the
    names given; so is a content without ["demo"] and without the
    [${projectName}] declaration.  A file or directory name without
    ["sns-demo"] is its own destination name. *)
Theorem rewrite_without_tokens :
  (forall content oldName newName,
     includes sns_demo content = false ->
     includes namespace_demo content = false ->
     includes project_name_variable content = false ->
     replaceProjectNames content oldName newName = content)
  /\ (forall content oldName newName,
        includes (lit "demo") content = false ->
        includes project_name_variable content = false ->
        replaceProjectNames content oldName newName = content)
  /\ (forall item newName,
        includes sns_demo item = false -> destItemName item newName = item).
Proof.
  split; [exact replaceProjectNames_no_trigger|]. split.
  - intros content oldName newName Hd Hp.
    apply replaceProjectNames_no_trigger; [| |assumption].
    + apply (includes_none (lit "demo")); [reflexivity|assumption].
    + apply (includes_none (lit "demo")); [reflexivity|assumption].
  - intros item newName H. unfold destItemName.
    apply (replace_global_no_token sns_demo); [reflexivity|assumption].
Qed.

Lemma rewrite_without_tokens_witness :
  replaceProjectNames (lit "<groupId>org.example</groupId>") (lit "demo")
    (lit "zoo") = lit "<groupId>org.example</groupId>"
  /\ destItemName (lit "pom.xml") (lit "zoo") = lit "pom.xml".
Proof.
  split.
  - apply (proj1 rewrite_without_tokens); reflexivity.
  - apply (proj2 (proj2 rewrite_without_tokens)); reflexivity.
Defined.

(** C2, as stated, fails: the catch-all looks for ["sns-demo"], and
    ["prefix-demo-suffix"] comes back as it is. *)
Lemma catch_all_counterexample :
  replaceProjectNames (lit "prefix-demo-suffix") (lit "demo") (lit "zoo")
  = lit "prefix-demo-suffix"
  /\ replaceProjectNames (lit "prefix-demo-suffix") (lit "demo") (lit "zoo")
     <> lit "prefix-zoo-suffix"
  /\ includes (lit "demo")
       (replaceProjectNames (lit "prefix-demo-suffix") (lit "demo") (lit "zoo"))
     = true.
Proof. vm_compute. repeat split; try reflexivity. discriminate. Qed.

Lemma rules_catch_all_last (newName : jsstring) :
  rules newName = removelast (rules newName) ++ [(Lit sns_demo, newName)].
Proof. reflexivity. Qed.

(** C2, amended.  The last call of the chain replaces the literal
    ["sns-demo"] (the [oldName] argument is not looked at) by the target
    name in what the calls before it produced;
    [rewrite("prefix-sns-demo-suffix", "demo", "zoo")] is
    ["prefix-zoo-suffix"], and under the target ["zoo"] no result, for
    any content, has an occurrence of ["sns-demo"] left. *)
Theorem catch_all_sns_demo :
  (forall content oldName newName,
     replaceProjectNames content oldName newName
     = replace_global (Lit sns_demo) newName
         (fold_left apply_rule (removelast (rules newName)) content))
  /\ replaceProjectNames (lit "prefix-sns-demo-suffix") (lit "demo") (lit "zoo")
     = lit "prefix-zoo-suffix"
  /\ (forall content oldName,
        includes sns_demo (replaceProjectNames content oldName (lit "zoo"))
        = false).
Proof.
  assert (H : forall content oldName newName,
     replaceProjectNames content oldName newName
     = replace_global (Lit sns_demo) newName
         (fold_left apply_rule (removelast (rules newName)) content)).
  { intros content oldName newName. unfold replaceProjectNames.
    rewrite (rules_catch_all_last newName) at 1.
    now rewrite fold_left_app. }
  split; [exact H|]. split; [vm_compute; reflexivity|].
  intros content oldName. rewrite H. unfold replace_global.
  apply (out_no_residual 115%N (lit "ns-demo") 122%N (lit "oo"));
    reflexivity.
Qed.

(** C3, as stated, fails: the declaration of ["demo-app"] is not
    rewritten at all. *)
Lemma structural_precedence_counterexample :
  replaceProjectNames (lit "<artifactId>demo-app</artifactId>") (lit "demo")
    (lit "zoo") = lit "<artifactId>demo-app</artifactId>"
  /\ includes (lit "<artifactId>zoo-app</artifactId>")
       (replaceProjectNames (lit "<artifactId>demo-app</artifactId>")
          (lit "demo") (lit "zoo")) = false.
Proof. vm_compute. split; reflexivity. Qed.

(** C3, amended.  In every content the declaration
    [<artifactId>sns-demo-app</artifactId>] becomes
    [<artifactId>zoo-app</artifactId>] under the target ["zoo"], with
    the suffix kept, and what stands before and after it is rewritten as
    if the declaration were not there; the catch-all is the last call of
    the chain. *)
Theorem structural_precedence :
  (forall pre post oldName,
     replaceProjectNames (pre ++ demo_app_declaration ++ post) oldName (lit "zoo")
     = replaceProjectNames pre oldName (lit "zoo")
         ++ zoo_app_declaration
         ++ replaceProjectNames post oldName (lit "zoo"))
  /\ (forall oldName,
        replaceProjectNames demo_app_declaration oldName (lit "zoo")
        = zoo_app_declaration)
  /\ (forall newName,
        rules newName = removelast (rules newName) ++ [(Lit sns_demo, newName)]).
Proof.
  assert (H : forall pre post oldName,
     replaceProjectNames (pre ++ demo_app_declaration ++ post) oldName (lit "zoo")
     = replaceProjectNames pre oldName (lit "zoo")
         ++ zoo_app_declaration
         ++ replaceProjectNames post oldName (lit "zoo")).
  { intros pre post oldName. unfold replaceProjectNames.
    change (lit "zoo") with zoo. rewrite rules_zoo_split.
    rewrite !fold_left_app. cbn [fold_left].
    rewrite (passes_fold _ _ rules_before_pass).
    rewrite rule_suffixed_artifact.
    apply (passes_fold _ _ rules_after_pass). }
  split; [exact H|]. split; [|exact rules_catch_all_last].
  intros oldName. vm_compute. reflexivity.
Qed.

(** C10.  The result of the rewriter does not depend on the [oldName]
    argument. *)
Theorem replaceProjectNames_oldName_irrelevant :
  forall content o1 o2 newName,
    replaceProjectNames content o1 newName
    = replaceProjectNames content o2 newName.
Proof. intros. reflexivity. Qed.

(** ** Names and directory entries *)

Lemma str_eqb_spec (a b : jsstring) : reflect (a = b) (str_eqb a b).
Proof.
  revert b. induction a as [|x a IH]; intros [|y b]; simpl;
    try (constructor; congruence).
  destruct (N.eqb_spec x y) as [->|Hne]; simpl.
  - destruct (IH b) as [->|Hne]; constructor; congruence.
  - constructor. congruence.
Qed.

Lemma str_eqb_refl (a : jsstring) : str_eqb a a = true.
Proof. destruct (str_eqb_spec a a); congruence. Qed.

Lemma str_eqb_neq (a b : jsstring) : a <> b -> str_eqb a b = false.
Proof. destruct (str_eqb_spec a b); congruence. Qed.

Lemma find_entry_set_same (n : jsstring) (v : node) (es : list (jsstring * node)) :
  find_entry n (set_entry n v es) = Some v.
Proof.
  induction es as [|[m u] es IH]; simpl.
  - now rewrite str_eqb_refl.
  - destruct (str_eqb n m) eqn:H; simpl; rewrite H; auto.
Qed.

Lemma find_entry_set_other (n m : jsstring) (v : node)
    (es : list (jsstring * node)) :
  m <> n -> find_entry m (set_entry n v es) = find_entry m es.
Proof.
  intros Hne. induction es as [|[k u] es IH]; simpl.
  - now rewrite str_eqb_neq.
  - destruct (str_eqb n k) eqn:H; simpl.
    + destruct (str_eqb_spec n k); [subst k|discriminate].
      now rewrite (str_eqb_neq m n Hne).
    + now rewrite IH.
Qed.

Lemma set_entry_set (n : jsstring) (v v' : node) (es : list (jsstring * node)) :
  set_entry n v' (set_entry n v es) = set_entry n v' es.
Proof.
  induction es as [|[m u] es IH]; simpl.
  - now rewrite str_eqb_refl.
  - destruct (str_eqb n m) eqn:H; simpl; rewrite H; [reflexivity|].
    now rewrite IH.
Qed.

Lemma set_entry_fresh (n : jsstring) (v : node) (es : list (jsstring * node)) :
  find_entry n es = None -> set_entry n v es = es ++ [(n, v)].
Proof.
  induction es as [|[m u] es IH]; simpl; [reflexivity|].
  destruct (str_eqb n m); [discriminate|]. intros H. now rewrite IH.
Qed.

Lemma find_entry_none (n : jsstring) (es : list (jsstring * node)) :
  find_entry n es = None <-> existsb (str_eqb n) (map fst es) = false.
Proof.
  induction es as [|[m u] es IH]; simpl; [tauto|].
  destruct (str_eqb n m); simpl; [split; discriminate|exact IH].
Qed.

Lemma find_entry_remove (n : jsstring) (es : list (jsstring * node)) :
  find_entry n (remove_entry n es) = None.
Proof.
  unfold remove_entry. induction es as [|[m u] es IH]; simpl; [reflexivity|].
  destruct (str_eqb n m) eqn:H; simpl; [assumption|]. now rewrite H.
Qed.

Lemma find_entry_remove_other (n m : jsstring) (es : list (jsstring * node)) :
  m <> n -> find_entry m (remove_entry n es) = find_entry m es.
Proof.
  intros Hne. unfold remove_entry.
  induction es as [|[k u] es IH]; simpl; [reflexivity|].
  destruct (str_eqb n k) eqn:H; simpl.
  - destruct (str_eqb_spec n k); [subst k|discriminate].
    now rewrite (str_eqb_neq m n Hne).
  - now rewrite IH.
Qed.

(** ** Paths *)

Lemma split_slash_plain (cur s : jsstring) :
  forallb (fun c => negb (c =? slash)%N) s = true ->
  split_slash cur s = [cur ++ s].
Proof.
  revert cur. induction s as [|x s IH]; intros cur H; simpl.
  - now rewrite app_nil_r.
  - simpl in H. apply andb_true_iff in H as [Hx Hs].
    apply negb_true_iff in Hx. rewrite Hx, IH by assumption.
    now rewrite <- app_assoc.
Qed.

Lemma path_join_segments (base : path) (segs : list jsstring) :
  forallb segment_ok segs = true -> path_join base segs = base ++ segs.
Proof.
  unfold path_join. revert base.
  induction segs as [|n segs IH]; intros base H; simpl.
  - now rewrite app_nil_r.
  - simpl in H. apply andb_true_iff in H as [Hn Hsegs].
    unfold segment_ok in Hn.
    apply andb_true_iff in Hn as [Hn Hslash].
    apply andb_true_iff in Hn as [Hn Hdd].
    apply andb_true_iff in Hn as [He Hd].
    rewrite split_slash_plain by assumption. simpl.
    unfold join_segment at 2.
    apply negb_true_iff in He, Hd, Hdd. rewrite He, Hd, Hdd. simpl.
    rewrite IH by assumption. now rewrite <- app_assoc.
Qed.

Lemma dirname_child (p : path) (n : jsstring) : dirname (p ++ [n]) = p.
Proof. apply removelast_last. Qed.

(** ** Lookup and graft *)

Lemma lookup_app (p q : path) (t : node) :
  lookup (p ++ q) t
  = match lookup p t with
    | Some v => lookup q v
    | None => None
    end.
Proof.
  revert t. induction p as [|n p IH]; intros t; simpl; [reflexivity|].
  destruct t as [c|es|]; try reflexivity.
  destruct (find_entry n es); [apply IH|reflexivity].
Qed.

Lemma lookup_empty_dir (p : path) : p <> [] -> lookup p (Dir []) = None.
Proof. destruct p; [contradiction|reflexivity]. Qed.

(** Grafting at a path leaves alone what the path does not lead to. *)
Lemma lookup_graft_diverge (c : path) (x y : jsstring) (a' b' : path)
    (v t : node) :
  x <> y ->
  lookup (c ++ y :: b') (graft (c ++ x :: a') v t) = lookup (c ++ y :: b') t.
Proof.
  intros Hne. revert t. induction c as [|z c IH]; intros t.
  - cbn [app graft lookup].
    destruct t as [cc|es|]; try reflexivity.
    rewrite find_entry_set_other by congruence. reflexivity.
  - cbn [app graft lookup].
    destruct t as [cc|es|]; try reflexivity.
    rewrite find_entry_set_same, IH.
    destruct (find_entry z es); [reflexivity|].
    apply lookup_empty_dir. destruct c; discriminate.
Qed.

Lemma lookup_graft_other (a b : path) (v t : node) :
  diverge a b -> lookup b (graft a v t) = lookup b t.
Proof.
  intros (c & x & a' & y & b' & -> & -> & Hne).
  now apply lookup_graft_diverge.
Qed.

(** Below a directory that exists, the grafted tree is found where it
    was put. *)
Lemma lookup_graft_same (par : path) (seg : jsstring) (q : path)
    (v t : node) (D : list (jsstring * node)) :
  lookup par t = Some (Dir D) ->
  lookup (par ++ [seg] ++ q) (graft (par ++ [seg]) v t) = lookup q v.
Proof.
  revert t. induction par as [|z par IH]; intros t H.
  - simpl in H. inversion H; subst t. cbn [app graft lookup].
    now rewrite find_entry_set_same.
  - cbn [lookup] in H. destruct t as [cc|es|]; try discriminate.
    destruct (find_entry z es) as [u|] eqn:Hz; [|discriminate].
    cbn [app graft lookup]. rewrite find_entry_set_same, Hz. now apply IH.
Qed.

Lemma graft_graft (p : path) (n : jsstring) (v t : node)
    (D : list (jsstring * node)) :
  graft (p ++ [n]) v (graft p (Dir D) t) = graft p (Dir (set_entry n v D)) t.
Proof.
  revert t. induction p as [|z p IH]; intros t.
  - reflexivity.
  - cbn [app graft]. destruct t as [cc|es|]; try reflexivity.
    rewrite find_entry_set_same, set_entry_set, IH. reflexivity.
Qed.

Lemma mkdirp_graft (p : path) (t t' : node) :
  lookup p t = None -> mkdirp p t = inr t' -> t' = graft p (Dir []) t.
Proof.
  revert t t'. induction p as [|n p IH]; intros t t' Hl Hm.
  - discriminate.
  - cbn [lookup mkdirp graft] in *. destruct t as [cc|es|]; try discriminate.
    destruct (find_entry n es) as [u|] eqn:Hn.
    + destruct (mkdirp p u) as [c|u'] eqn:Hu; [discriminate|].
      inversion Hm; subst t'. now rewrite (IH u u' Hl Hu).
    + destruct (mkdirp p (Dir [])) as [c|u'] eqn:Hu; [discriminate|].
      inversion Hm; subst t'. f_equal. f_equal.
      destruct p as [|m p].
      * simpl in Hu. now inversion Hu.
      * now apply IH.
Qed.

Lemma write_file_graft (p : path) (n : jsstring) (c : jsstring) (t : node)
    (D : list (jsstring * node)) :
  lookup p t = Some (Dir D) ->
  find_entry n D = None ->
  write_file (p ++ [n]) c t = inr (graft (p ++ [n]) (File c) t).
Proof.
  revert t. induction p as [|z p IH]; intros t Hl Hn.
  - simpl in Hl. inversion Hl; subst t. cbn [app write_file graft].
    now rewrite Hn.
  - cbn [lookup] in Hl. destruct t as [cc|es|]; try discriminate.
    destruct (find_entry z es) as [u|] eqn:Hz; [|discriminate].
    cbn [app write_file graft]. rewrite Hz, (IH u Hl Hn). reflexivity.
Qed.

Lemma lookup_remove_path (p : path) (t : node) :
  p <> [] -> lookup p (remove_path p t) = None.
Proof.
  revert t. induction p as [|n p IH]; intros t Hp; [contradiction|].
  cbn [remove_path]. destruct t as [cc|es|]; try reflexivity.
  destruct p as [|m p].
  - cbn [lookup]. now rewrite find_entry_remove.
  - destruct (find_entry n es) as [u|] eqn:Hn.
    + cbn [lookup]. rewrite find_entry_set_same. apply IH. discriminate.
    + cbn [lookup]. now rewrite Hn.
Qed.

(** ** Renamed entries are names of entries *)

Lemma valid_name_units (n : jsstring) :
  validateProjectName n = true ->
  exists z t', n = z :: t' /\ lower z = true
               /\ forallb lower_digit_hyphen n = true.
Proof.
  intros H. rewrite validate_shape in H.
  pose proof (name_shape_forall n H) as Hall.
  destruct n as [|z t']; [discriminate|].
  simpl in H. apply andb_true_iff in H as [Hz _]. eauto.
Qed.

Lemma class_no_dollar (c : code_unit) :
  lower_digit_hyphen c = true -> negb (c =? dollar)%N = true.
Proof.
  unfold lower_digit_hyphen, lower, digit, in_range, hyphen, dollar.
  rewrite !orb_true_iff, !andb_true_iff, !N.leb_le, N.eqb_eq, negb_true_iff,
    N.eqb_neq. lia.
Qed.

Lemma class_no_slash (c : code_unit) :
  lower_digit_hyphen c = true -> negb (c =? slash)%N = true.
Proof.
  unfold lower_digit_hyphen, lower, digit, in_range, hyphen, slash.
  rewrite !orb_true_iff, !andb_true_iff, !N.leb_le, N.eqb_eq, negb_true_iff,
    N.eqb_neq. lia.
Qed.

Lemma forallb_impl {A} (f g : A -> bool) (l : list A) :
  (forall a, f a = true -> g a = true) ->
  forallb f l = true -> forallb g l = true.
Proof.
  intros Hfg. induction l as [|a l IH]; simpl; [reflexivity|].
  rewrite !andb_true_iff. intros [Ha Hl]. auto.
Qed.

Section Renaming.

Variables (newName : jsstring).
Hypothesis newName_valid : validateProjectName newName = true.

Lemma newName_plain :
  forallb (fun c => negb (c =? dollar)%N) newName = true.
Proof.
  destruct (valid_name_units newName newName_valid) as (z & t' & _ & _ & H).
  exact (forallb_impl _ _ _ class_no_dollar H).
Qed.

Lemma newName_no_slash :
  forallb (fun c => negb (c =? slash)%N) newName = true.
Proof.
  destruct (valid_name_units newName newName_valid) as (z & t' & _ & _ & H).
  exact (forallb_impl _ _ _ class_no_slash H).
Qed.

Let out (total : nat) (before s : jsstring) : jsstring :=
  replace_from (Lit sns_demo) newName total before 0 s.

Lemma rename_cases (total : nat) (before s : jsstring) :
  (s = [] /\ out total before s = [])
  \/ (exists rest, s = sns_demo ++ rest
        /\ out total before s = newName ++ out total (before ++ sns_demo) rest)
  \/ (exists a s', s = a :: s' /\ starts_with sns_demo s = false
        /\ out total before s = a :: out total (before ++ [a]) s').
Proof.
  destruct (valid_name_units newName newName_valid) as (z & t' & Hn & _ & _).
  pose proof newName_plain as Hp. rewrite Hn in Hp.
  unfold out. rewrite Hn.
  exact (out_cases 115%N (lit "ns-demo") z t' Hp total before s).
Qed.

Lemma rename_no_slash (total : nat) (s : jsstring) :
  forall before,
    forallb (fun c => negb (c =? slash)%N) s = true ->
    forallb (fun c => negb (c =? slash)%N) (out total before s) = true.
Proof.
  intros before Hs. unfold out.
  apply (replace_lit_forallb 115%N (lit "ns-demo") newName newName_plain);
    [apply newName_no_slash|assumption].
Qed.

Lemma rename_same_or_letter (total : nat) (s : jsstring) :
  forall before,
    out total before s = s \/ existsb lower (out total before s) = true.
Proof.
  induction s as [|a s IH]; intros before.
  - left. reflexivity.
  - destruct (rename_cases total before (a :: s))
      as [(H & Ho)|[(rest & H & Ho)|(a' & s' & H & _ & Ho)]].
    + discriminate.
    + right. rewrite Ho.
      destruct (valid_name_units newName newName_valid)
        as (z & t' & -> & Hz & _).
      simpl. now rewrite Hz.
    + inversion H; subst a' s'. rewrite Ho.
      destruct (IH (before ++ [a])) as [E|E].
      * left. now rewrite E.
      * right. simpl. rewrite E. apply orb_true_r.
Qed.

Lemma destItemName_segment (item : jsstring) :
  segment_ok item = true -> segment_ok (destItemName item newName) = true.
Proof.
  intros Hitem. unfold destItemName, replace_global.
  change (lit "sns-demo") with sns_demo.
  destruct (rename_same_or_letter (length item) item []) as [E|E];
    unfold out in E.
  - now rewrite E.
  - unfold segment_ok in *.
    apply andb_true_iff in Hitem as [_ Hslash].
    pose proof (rename_no_slash (length item) item [] Hslash) as Hns.
    unfold out in Hns. rewrite Hns, andb_true_r.
    set (o := replace_from (Lit sns_demo) newName (length item) [] 0 item) in *.
    destruct (str_eqb_spec o []) as [H|_];
      [rewrite H in E; discriminate|].
    destruct (str_eqb_spec o (lit ".")) as [H|_];
      [rewrite H in E; discriminate|].
    destruct (str_eqb_spec o (lit "..")) as [H|_];
      [rewrite H in E; discriminate|].
    reflexivity.
Qed.

Lemma newName_segment (sfx : jsstring) :
  forallb (fun c => negb (c =? slash)%N) sfx = true ->
  segment_ok (newName ++ sfx) = true.
Proof.
  intros Hsfx.
  destruct (valid_name_units newName newName_valid) as (z & t' & Hn & Hz & _).
  unfold segment_ok. apply andb_true_iff. split.
  - rewrite Hn. cbn [app].
    assert (Hd : (46 =? z)%N = false).
    { unfold lower, in_range in Hz. apply andb_true_iff in Hz as [Hz _].
      apply N.leb_le in Hz. apply N.eqb_neq. lia. }
    cbn [str_eqb lit list_ascii_of_string map]. 
    change (N_of_ascii ".") with 46%N. cbn [andb negb].
    now rewrite N.eqb_sym, Hd.
  - rewrite forallb_app. apply andb_true_iff.
    split; [apply newName_no_slash|exact Hsfx].
Qed.

End Renaming.

(** The project name without its hyphens is a name of an entry. *)
Lemma collapsed_segment (projectName : jsstring) :
  validateProjectName projectName = true ->
  segment_ok (Generator.collapsed projectName) = true.
Proof.
  intros Hvalid.
  destruct (valid_name_units projectName Hvalid) as (z & t' & Hn & Hz & Hall).
  unfold Generator.collapsed, replace_global.
  set (o := replace_from (Lit (lit "-")) [] (length projectName) [] 0 projectName).
  assert (Hslash : forallb (fun c => negb (c =? slash)%N) o = true).
  { apply (replace_lit_forallb 45%N [] [] eq_refl); [reflexivity|].
    exact (forallb_impl _ _ _ class_no_slash Hall). }
  assert (Hletter : existsb lower o = true).
  { unfold o.
    destruct (replace_lit_cases 45%N [] [] eq_refl (length projectName) [] projectName)
      as [(H & _)|[(rest & H & _)|(a & s' & H & _ & Ho)]].
    - rewrite Hn in H. discriminate.
    - rewrite Hn in H. inversion H. subst z. discriminate.
    - etransitivity; [apply (f_equal (existsb lower)); exact Ho|].
      rewrite Hn in H. inversion H; subst a s'. simpl. now rewrite Hz. }
  unfold segment_ok. rewrite Hslash, andb_true_r.
  destruct (str_eqb_spec o []) as [H|_]; [rewrite H in Hletter; discriminate|].
  destruct (str_eqb_spec o (lit ".")) as [H|_];
    [rewrite H in Hletter; discriminate|].
  destruct (str_eqb_spec o (lit "..")) as [H|_];
    [rewrite H in Hletter; discriminate|].
  reflexivity.
Qed.

(** ** Writes and removals seen from another path *)

Lemma exists_write_file_other (q : path) (c : jsstring) :
  forall (p : path) (t t' : node),
    write_file q c t = inr t' -> p <> q ->
    existsSync t' p = existsSync t p.
Proof.
  unfold existsSync. induction q as [|n q IH]; intros p t t' H Hne.
  - destruct p as [|m p]; [contradiction|].
    cbn [write_file] in H. destruct t; try discriminate.
    inversion H; subst. reflexivity.
  - cbn [write_file] in H. destruct t as [cc|es|]; try discriminate.
    destruct p as [|m p].
    + destruct (find_entry n es) as [v|].
      * destruct (write_file q c v); [discriminate|]. now inversion H.
      * destruct q; [|discriminate]. now inversion H.
    + destruct (find_entry n es) as [v|] eqn:Hn.
      * destruct (write_file q c v) as [|v'] eqn:Hw; [discriminate|].
        inversion H; subst t'. cbn [lookup].
        destruct (str_eqb_spec m n) as [->|Hmn].
        -- rewrite find_entry_set_same, Hn. apply (IH p v v' Hw). congruence.
        -- now rewrite find_entry_set_other.
      * destruct q; [|discriminate]. inversion H; subst t'. cbn [lookup].
        destruct (str_eqb_spec m n) as [->|Hmn].
        -- rewrite find_entry_set_same, Hn.
           destruct p; [contradiction|reflexivity].
        -- now rewrite find_entry_set_other.
Qed.

Lemma exists_remove_path_other (q : path) :
  forall (p : path) (t : node),
    is_prefix q p = false ->
    existsSync (remove_path q t) p = existsSync t p.
Proof.
  unfold existsSync. induction q as [|n q IH]; intros p t Hpre; [discriminate|].
  cbn [remove_path]. destruct t as [cc|es|]; try reflexivity.
  destruct p as [|m p]; [destruct q; [reflexivity|destruct (find_entry n es); reflexivity]|].
  cbn [is_prefix] in Hpre.
  destruct q as [|k q].
  - cbn [lookup]. destruct (str_eqb_spec n m) as [->|Hnm]; [discriminate|].
    rewrite find_entry_remove_other by congruence. reflexivity.
  - destruct (find_entry n es) as [v|] eqn:Hn; [|reflexivity].
    cbn [lookup]. destruct (str_eqb_spec n m) as [->|Hnm].
    + rewrite find_entry_set_same, Hn. apply IH. exact Hpre.
    + rewrite find_entry_set_other by congruence. reflexivity.
Qed.

(** ** Computations that end without a throw *)

Lemma bind_done {A B} (m : M A) (k : A -> M B) (t t' : node) (b : B) :
  bind m k t = (Done b, t') ->
  exists a t1, m t = (Done a, t1) /\ k a t1 = (Done b, t').
Proof.
  unfold bind. destruct (m t) as [[a|err] t1]; [eauto|discriminate].
Qed.

Lemma guarded_done {A} (e : env) (op : fs_op) (m : M A) (t t' : node) (a : A) :
  guarded e op m t = (Done a, t') -> faults e op = false /\ m t = (Done a, t').
Proof.
  unfold guarded. destruct (faults e op); [discriminate|auto].
Qed.

Lemma statSync_done (e : env) (p : path) (t t' : node) (st : stats) :
  statSync e p t = (Done st, t') ->
  t' = t /\ exists v, lookup p t = Some v /\ st = stats_of v.
Proof.
  intros H. apply guarded_done in H as [_ H].
  destruct (lookup p t) as [v|]; [|discriminate].
  inversion H; subst. eauto.
Qed.

Lemma readdirSync_done (e : env) (p : path) (t t' : node) (items : list jsstring) :
  readdirSync e p t = (Done items, t') ->
  t' = t /\ exists es, lookup p t = Some (Dir es) /\ items = map fst es.
Proof.
  intros H. apply guarded_done in H as [_ H].
  destruct (lookup p t) as [[c|es|]|]; try discriminate.
  inversion H; subst. eauto.
Qed.

Lemma readFileSync_done (e : env) (p : path) (t t' : node) (c : jsstring) :
  readFileSync e p t = (Done c, t') -> t' = t /\ lookup p t = Some (File c).
Proof.
  intros H. apply guarded_done in H as [_ H].
  destruct (lookup p t) as [[c'|es|]|]; try discriminate.
  inversion H; subst. auto.
Qed.

Lemma writeFileSync_done (e : env) (p : path) (c : jsstring) (t t' : node) :
  writeFileSync e p c t = (Done tt, t') -> write_file p c t = inr t'.
Proof.
  intros H. apply guarded_done in H as [_ H].
  destruct (write_file p c t); [discriminate|]. now inversion H.
Qed.

Lemma ensure_dir_present (e : env) (p : path) (t : node) :
  existsSync t p = true -> ensure_dir e p t = (Done tt, t).
Proof. intros H. unfold ensure_dir. now rewrite H. Qed.

Lemma ensure_dir_absent (e : env) (p : path) (t t' : node) :
  lookup p t = None ->
  ensure_dir e p t = (Done tt, t') -> t' = graft p (Dir []) t.
Proof.
  intros Hl H. unfold ensure_dir, existsSync in H. rewrite Hl in H.
  cbn [negb] in H. apply guarded_done in H as [_ H].
  destruct (mkdirp p t) as [c|t1] eqn:Hm; [discriminate|].
  inversion H; subst t1. now apply mkdirp_graft.
Qed.

(** ** Paths that part ways *)

Lemma diverge_sym (a b : path) : diverge a b -> diverge b a.
Proof.
  intros (c & x & a' & y & b' & -> & -> & H).
  exists c, y, b', x, a'. auto.
Qed.

Lemma diverge_app (a b x y : path) : diverge a b -> diverge (a ++ x) (b ++ y).
Proof.
  intros (c & u & a' & v & b' & -> & -> & H).
  exists c, u, (a' ++ x), v, (b' ++ y).
  rewrite <- !app_assoc. auto.
Qed.

Lemma is_prefix_spec (a b : path) :
  is_prefix a b = true <-> exists c, b = a ++ c.
Proof.
  revert b. induction a as [|x a IH]; intros b; simpl.
  - split; eauto.
  - destruct b as [|y b].
    + split; [discriminate|]. intros (c & H). discriminate.
    + rewrite andb_true_iff, IH. split.
      * intros (Hxy & c & ->). destruct (str_eqb_spec x y); [subst|discriminate].
        eauto.
      * intros (c & H). inversion H; subst. rewrite str_eqb_refl. eauto.
Qed.

Lemma incomparable_diverge (a b : path) :
  is_prefix a b = false -> is_prefix b a = false -> diverge a b.
Proof.
  revert b. induction a as [|x a IH]; intros b Hab Hba; [discriminate|].
  destruct b as [|y b]; [discriminate|].
  simpl in Hab, Hba.
  destruct (str_eqb_spec x y) as [->|Hne].
  - rewrite str_eqb_refl in Hba. simpl in *.
    destruct (IH b Hab Hba) as (c & u & a' & v & b' & -> & -> & H).
    exists (y :: c), u, a', v, b'. auto.
  - exists [], x, a, y, b. auto.
Qed.

(** ** The shape of a clone *)

Lemma cloned_dir (oldName newName : jsstring) (es : list (jsstring * node)) :
  cloned oldName newName (Dir es) = Dir (cloned_entries oldName newName es).
Proof.
  cbn [cloned]. f_equal. unfold cloned_entries.
  induction es as [|e es IH]; [reflexivity|].
  cbn [filter]. destruct (is_other (snd e)); cbn [negb map].
  - exact IH.
  - now rewrite IH.
Qed.

Lemma cloned_entries_app (oldName newName : jsstring)
    (a b : list (jsstring * node)) :
  cloned_entries oldName newName (a ++ b)
  = cloned_entries oldName newName a ++ cloned_entries oldName newName b.
Proof. unfold cloned_entries. now rewrite filter_app, map_app. Qed.

Lemma names_ok_dir (es : list (jsstring * node)) :
  names_ok (Dir es)
  = forallb segment_ok (map fst es) && distinct (map fst es)
    && forallb (fun e => names_ok (snd e)) es.
Proof.
  reflexivity.
Qed.

Lemma rename_distinct_dir (newName : jsstring) (es : list (jsstring * node)) :
  rename_distinct newName (Dir es)
  = distinct (map (fun e => destItemName (fst e) newName)
                (filter (fun e => negb (is_other (snd e))) es))
    && forallb (fun e => rename_distinct newName (snd e)) es.
Proof.
  reflexivity.
Qed.

Lemma distinct_middle (l1 : list jsstring) (x : jsstring) (l2 : list jsstring) :
  distinct (l1 ++ x :: l2) = true -> existsb (str_eqb x) l1 = false.
Proof.
  induction l1 as [|y l1 IH]; simpl; [reflexivity|].
  rewrite existsb_app. simpl.
  intros H. apply andb_true_iff in H as [Hy Hd].
  apply negb_true_iff, orb_false_iff in Hy as [_ Hy].
  apply orb_false_iff in Hy as [Hy _].
  rewrite (IH Hd), orb_false_r.
  destruct (str_eqb_spec y x) as [->|Hne]; [discriminate|].
  apply str_eqb_neq. congruence.
Qed.

Lemma find_entry_middle (done : list (jsstring * node)) (m : jsstring)
    (v : node) (l : list (jsstring * node)) :
  distinct (map fst (done ++ (m, v) :: l)) = true ->
  find_entry m (done ++ (m, v) :: l) = Some v.
Proof.
  intros H. rewrite map_app in H. cbn [map fst] in H.
  apply distinct_middle in H.
  induction done as [|[k u] done IH]; simpl in *.
  - now rewrite str_eqb_refl.
  - apply orb_false_iff in H as [Hk H]. rewrite Hk. auto.
Qed.

Lemma free_slot_absent (dst : path) (root : node) :
  free_slot dst root -> lookup dst root = None.
Proof.
  intros (par & seg & D & -> & Hpar & Hseg).
  rewrite lookup_app, Hpar. cbn [lookup]. now rewrite Hseg.
Qed.

Lemma free_slot_graft (dst : path) (root v : node) (q : path) :
  free_slot dst root -> lookup (dst ++ q) (graft dst v root) = lookup q v.
Proof.
  intros (par & seg & D & -> & Hpar & Hseg).
  rewrite <- app_assoc. now apply lookup_graft_same with (D := D).
Qed.

Lemma free_slot_child (dst : path) (root : node) (D : list (jsstring * node))
    (n : jsstring) :
  free_slot dst root ->
  find_entry n D = None ->
  free_slot (dst ++ [n]) (graft dst (Dir D) root).
Proof.
  intros Hslot Hn. exists dst, n, D. repeat split; [|assumption].
  rewrite <- (app_nil_r dst) at 1. now rewrite free_slot_graft.
Qed.

Section CloneShape.

Variables (e : env) (oldName newName : jsstring).
Hypothesis newName_valid : validateProjectName newName = true.

Lemma clone_graft (depth : nat) :
  forall src dst es root root',
    names_ok (Dir es) = true ->
    rename_distinct newName (Dir es) = true ->
    diverge src dst ->
    lookup src root = Some (Dir es) ->
    free_slot dst root ->
    Clone.copyAndReplaceDir e depth src dst oldName newName root
    = (Done tt, root') ->
    root' = graft dst (cloned oldName newName (Dir es)) root.
Proof.
  induction depth as [|d IHd];
    intros src dst es root root' Hnames Hren Hdiv Hsrc Hslot H;
    [discriminate|].
  cbn [Clone.copyAndReplaceDir] in H.
  apply bind_done in H as ([] & r0 & Hens & H).
  apply ensure_dir_absent in Hens; [|now apply free_slot_absent]. subst r0.
  apply bind_done in H as (items & r1 & Hrd & H).
  apply readdirSync_done in Hrd as (-> & es0 & Hl & ->).
  rewrite (lookup_graft_other dst src) in Hl by now apply diverge_sym.
  rewrite Hsrc in Hl. inversion Hl; subst es0. clear Hl.
  rewrite cloned_dir.
  rewrite names_ok_dir in Hnames.
  apply andb_true_iff in Hnames as [Hnames Hsub].
  apply andb_true_iff in Hnames as [Hseg Hdist].
  rewrite rename_distinct_dir in Hren.
  apply andb_true_iff in Hren as [Hrd Hrsub].
  match type of H with
  | for_each _ ?b _ = _ => set (body := b) in H
  end.
  assert (Loop : forall l done rk,
    es = done ++ l ->
    rk = graft dst (Dir (cloned_entries oldName newName done)) root ->
    for_each (map fst l) body rk = (Done tt, root') ->
    root' = graft dst (Dir (cloned_entries oldName newName es)) root).
  { induction l as [|[m v] l IHl]; intros done rk Hes Hrk Hloop.
    - cbn in Hloop. inversion Hloop; subst. now rewrite app_nil_r.
    - cbn [map for_each fst] in Hloop.
      apply bind_done in Hloop as ([] & rk1 & Hbody & Hloop).
      apply (IHl (done ++ [(m, v)]) rk1); [now rewrite <- app_assoc| |exact Hloop].
      clear Hloop IHl.
      assert (Hm : segment_ok m = true).
      { rewrite forallb_forall in Hseg. apply Hseg. rewrite Hes, map_app.
        apply in_or_app. right. left. reflexivity. }
      assert (Hm' : segment_ok (destItemName m newName) = true)
        by now apply destItemName_segment.
      assert (Hv : find_entry m es = Some v).
      { rewrite Hes. apply find_entry_middle. now rewrite <- Hes. }
      assert (Hin : In (m, v) es).
      { rewrite Hes. apply in_or_app. right. left. reflexivity. }
      unfold body in Hbody. cbv zeta in Hbody.
      rewrite !path_join_segments in Hbody
        by (cbn [forallb]; rewrite ?Hm, ?Hm'; reflexivity).
      apply bind_done in Hbody as (st & r2 & Hst & Hbody).
      apply statSync_done in Hst as (-> & v' & Hlv & ->).
      rewrite Hrk in Hlv.
      rewrite (lookup_graft_other dst (src ++ [m])) in Hlv
        by (rewrite <- (app_nil_r dst); apply diverge_app;
            now apply diverge_sym).
      rewrite lookup_app, Hsrc in Hlv. cbn [lookup] in Hlv.
      rewrite Hv in Hlv. inversion Hlv; subst v'. clear Hlv.
      rewrite cloned_entries_app.
      set (Dk := cloned_entries oldName newName done) in *.
      assert (Hfresh : is_other v = false ->
                find_entry (destItemName m newName) Dk = None).
      { intros Hno. apply find_entry_none.
        rewrite Hes, filter_app, map_app in Hrd. cbn [filter snd] in Hrd.
        rewrite Hno in Hrd. cbn [negb map fst] in Hrd.
        apply distinct_middle in Hrd.
        unfold Dk, cloned_entries. rewrite map_map. cbn [fst]. exact Hrd. }
      assert (Hdst : lookup dst rk = Some (Dir Dk)).
      { rewrite Hrk. rewrite <- (app_nil_r dst) at 1.
        now rewrite free_slot_graft. }
      assert (Hstep : forall T, is_other v = false ->
                graft (dst ++ [destItemName m newName]) T rk
                = graft dst (Dir (Dk ++ [(destItemName m newName, T)])) root).
      { intros T Hno. rewrite Hrk, graft_graft.
        now rewrite set_entry_fresh by auto. }
      destruct v as [c|es'|]; cbn [stats_of] in Hbody.
      + (* a regular file *)
        unfold Clone.copyAndReplaceFile in Hbody.
        rewrite dirname_child in Hbody.
        apply bind_done in Hbody as ([] & r3 & Hens & Hbody).
        rewrite ensure_dir_present in Hens
          by (unfold existsSync; now rewrite Hdst).
        inversion Hens; subst r3. clear Hens.
        apply bind_done in Hbody as (c' & r4 & Hread & Hbody).
        apply readFileSync_done in Hread as (-> & Hread).
        rewrite Hrk in Hread.
        rewrite (lookup_graft_other dst (src ++ [m])) in Hread
          by (rewrite <- (app_nil_r dst); apply diverge_app;
              now apply diverge_sym).
        rewrite lookup_app, Hsrc in Hread. cbn [lookup] in Hread.
        rewrite Hv in Hread. inversion Hread; subst c'. clear Hread.
        apply writeFileSync_done in Hbody.
        rewrite (write_file_graft dst _ _ rk Dk Hdst (Hfresh eq_refl)) in Hbody.
        inversion Hbody; subst rk1.
        rewrite (Hstep _ eq_refl). reflexivity.
      + (* a directory *)
        rewrite forallb_forall in Hsub, Hrsub.
        apply (IHd (src ++ [m]) (dst ++ [destItemName m newName]) es') in Hbody.
        * rewrite Hbody, (Hstep _ eq_refl). reflexivity.
        * apply (Hsub _ Hin).
        * apply (Hrsub _ Hin).
        * now apply diverge_app.
        * rewrite Hrk.
          rewrite (lookup_graft_other dst (src ++ [m]))
            by (rewrite <- (app_nil_r dst); apply diverge_app;
                now apply diverge_sym).
          rewrite lookup_app, Hsrc. cbn [lookup]. now rewrite Hv.
        * rewrite Hrk. apply free_slot_child; auto.
      + (* neither *)
        inversion Hbody; subst rk1.
        change (cloned_entries oldName newName [(m, Other)]) with (@nil (jsstring * node)).
        now rewrite app_nil_r. }
  apply (Loop es [] _ eq_refl eq_refl H).
Qed.

End CloneShape.

(** ** Tree cloner *)

Lemma count_files_cloned (oldName newName : jsstring) (t : node) :
  count_files (cloned oldName newName t) = count_files t.
Proof.
  induction t as [c|es IH|] using node_ind; try reflexivity.
  cbn [cloned count_files].
  induction IH as [|e es He _ IHes]; [reflexivity|].
  destruct (snd e) as [c|es'|] eqn:Hsnd; cbn [is_other snd];
    rewrite ?IHes; try (rewrite He); reflexivity.
Qed.

Lemma count_dirs_cloned (oldName newName : jsstring) (t : node) :
  count_dirs (cloned oldName newName t) = count_dirs t.
Proof.
  induction t as [c|es IH|] using node_ind; try reflexivity.
  cbn [cloned count_dirs]. f_equal.
  induction IH as [|e es He _ IHes]; [reflexivity|].
  destruct (snd e) as [c|es'|] eqn:Hsnd; cbn [is_other snd];
    rewrite ?IHes; try (rewrite He); reflexivity.
Qed.

Lemma lookup_prefix (a c : path) (t v : node) :
  lookup (a ++ c) t = Some v -> exists u, lookup a t = Some u.
Proof.
  rewrite lookup_app. destruct (lookup a t); [eauto|discriminate].
Qed.

(** C4, as stated, fails: a template with the two files [sns-demo.txt]
    and [zoo.txt] is cloned under the name ["zoo"] without an error, and
    the destination has one file. *)
Lemma clone_shape_counterexample :
  let e := {| cwd := [lit "home"]; module_dirname := [lit "opt"];
              argv0 := [lit "usr"; lit "node"];
              faults := fun _ => false; stack_limit := 8 |} in
  let template := Dir [(lit "sns-demo.txt", File (lit "a"));
                       (lit "zoo.txt", File (lit "b"))] in
  let root := Dir [(lit "home", Dir [(lit "sns-demo", template)])] in
  exists root',
    Clone.copyAndReplaceDir e 8 [lit "home"; lit "sns-demo"]
      [lit "home"; lit "zoo"] (lit "demo") (lit "zoo") root = (Done tt, root')
    /\ lookup [lit "home"; lit "zoo"] root'
       = Some (Dir [(lit "zoo.txt", File (lit "b"))])
    /\ count_files template = 2
    /\ count_files (Dir [(lit "zoo.txt", File (lit "b"))]) = 1.
Proof. eexists. vm_compute. repeat split; reflexivity. Qed.

(** C4, amended.  Take a template directory whose names are names of
    entries, none twice in one directory, and in which the renaming
    sends no two regular files or directories of one directory to one
    name; a valid project name; a destination that is a new entry of an
    existing directory and does not lie inside the template.  When the
    clone ends without a throw, the destination is the template with
    every regular file and directory under its new name and every file
    content rewritten; it has as many regular files and as many
    directories as the template, and the template is as it was. *)
Theorem clone_tree_shape :
  forall (e : env) (depth : nat) (src dst : path) (oldName newName : jsstring)
         (es : list (jsstring * node)) (root root' : node),
    validateProjectName newName = true ->
    lookup src root = Some (Dir es) ->
    names_ok (Dir es) = true ->
    rename_distinct newName (Dir es) = true ->
    is_prefix src dst = false ->
    free_slot dst root ->
    Clone.copyAndReplaceDir e depth src dst oldName newName root
    = (Done tt, root') ->
    lookup dst root' = Some (cloned oldName newName (Dir es))
    /\ count_files (cloned oldName newName (Dir es)) = count_files (Dir es)
    /\ count_dirs (cloned oldName newName (Dir es)) = count_dirs (Dir es)
    /\ lookup src root' = Some (Dir es).
Proof.
  intros e depth src dst oldName newName es root root'
    Hvalid Hsrc Hnames Hren Hpre Hslot H.
  assert (Hdiv : diverge src dst).
  { apply incomparable_diverge; [assumption|].
    destruct (is_prefix dst src) eqn:Hp; [exfalso|reflexivity].
    apply is_prefix_spec in Hp as (c & ->).
    apply lookup_prefix in Hsrc as (u & Hu).
    rewrite (free_slot_absent _ _ Hslot) in Hu. discriminate. }
  apply (clone_graft e oldName newName Hvalid depth src dst es root root'
           Hnames Hren Hdiv Hsrc Hslot) in H.
  subst root'. repeat split.
  - rewrite <- (app_nil_r dst) at 1. now rewrite free_slot_graft.
  - apply count_files_cloned.
  - apply count_dirs_cloned.
  - rewrite lookup_graft_other by now apply diverge_sym. exact Hsrc.
Qed.

Lemma clone_tree_shape_witness :
  let e := {| cwd := [lit "home"]; module_dirname := [lit "opt"];
              argv0 := [lit "usr"; lit "node"];
              faults := fun _ => false; stack_limit := 8 |} in
  let es := [(lit "pom.xml", File (lit "<name>sns-demo</name>"));
             (lit "sns-demo-app", Dir [(lit "a.txt", File (lit "sns-demo"))])] in
  let root := Dir [(lit "home", Dir [(lit "sns-demo", Dir es)])] in
  let root' :=
    snd (Clone.copyAndReplaceDir e 8 [lit "home"; lit "sns-demo"]
           [lit "home"; lit "zoo"] (lit "demo") (lit "zoo") root) in
  lookup [lit "home"; lit "zoo"] root'
  = Some (cloned (lit "demo") (lit "zoo") (Dir es))
  /\ count_files (cloned (lit "demo") (lit "zoo") (Dir es)) = count_files (Dir es)
  /\ count_dirs (cloned (lit "demo") (lit "zoo") (Dir es)) = count_dirs (Dir es)
  /\ lookup [lit "home"; lit "sns-demo"] root' = Some (Dir es).
Proof.
  intros e es root root'.
  apply (clone_tree_shape e 8 [lit "home"; lit "sns-demo"]
           [lit "home"; lit "zoo"] (lit "demo") (lit "zoo") es root root').
  - reflexivity.
  - reflexivity.
  - reflexivity.
  - reflexivity.
  - reflexivity.
  - exists [lit "home"], (lit "zoo"), [(lit "sns-demo", Dir es)].
    repeat split; reflexivity.
  - vm_compute. reflexivity.
Defined.

(** ** Orchestrator of the cloning variant *)

Lemma valid_name_segment (name sfx : jsstring) :
  validateProjectName name = true ->
  forallb (fun c => negb (c =? slash)%N) sfx = true ->
  segment_ok (name ++ sfx) = true.
Proof. intros. now apply newName_segment. Qed.

Lemma target_path (e : env) (projectName : jsstring) :
  validateProjectName projectName = true ->
  path_join (cwd e) [projectName] = cwd e ++ [projectName].
Proof.
  intros H. apply path_join_segments. cbn [forallb].
  rewrite <- (app_nil_r projectName).
  now rewrite valid_name_segment.
Qed.

(** C7, as stated, fails: the target exists, the template does not, and
    the item is the one on the missing template. *)
Lemma collision_counterexample :
  let e := {| cwd := [lit "home"]; module_dirname := [lit "opt"];
              argv0 := [lit "usr"; lit "node"];
              faults := fun _ => false; stack_limit := 8 |} in
  let w := {| Clone.fs := Dir [(lit "home", Dir [(lit "zoo", Dir [])])];
              Clone.ui := []; Clone.console := [] |} in
  existsSync (Clone.fs w) (path_join (cwd e) [trim (lit "zoo")]) = true
  /\ Clone.ui (Clone.action e (lit "zoo") w)
     = [ {| Clone.item_type := ERROR;
            Clone.item_text_of :=
              Clone.TemplateMissing [lit "home"; lit "sns-demo"] |} ].
Proof. vm_compute. split; reflexivity. Qed.

(** C7, amended.  A run whose target path exists leaves the file system
    and the console as they were and adds one item; when the name is
    valid and the template exists, the run is the collision error alone,
    and the cloner is not run. *)
Theorem collision_keeps_target :
  forall (e : env) (args : jsstring) (w : Clone.world),
    existsSync (Clone.fs w) (path_join (cwd e) [trim args]) = true ->
    Clone.fs (Clone.action e args w) = Clone.fs w
    /\ Clone.console (Clone.action e args w) = Clone.console w
    /\ (exists item, Clone.ui (Clone.action e args w) = item :: Clone.ui w)
    /\ (validateProjectName (trim args) = true ->
        existsSync (Clone.fs w) (Clone.getTemplatePath e (Clone.fs w)) = true ->
        Clone.action e args w
        = Clone.addItem ERROR
            (Clone.TargetExists (path_join (cwd e) [trim args])) w).
Proof.
  intros e args w Hex. unfold Clone.action.
  destruct (validateProjectName (trim args)); cbn [negb].
  - destruct (existsSync (Clone.fs w) (Clone.getTemplatePath e (Clone.fs w)));
      cbn [negb].
    + rewrite Hex.
      repeat split; try (intros; reflexivity); eexists; reflexivity.
    + repeat split; try discriminate; try reflexivity; eexists; reflexivity.
  - repeat split; try discriminate; try reflexivity; eexists; reflexivity.
Qed.

Lemma collision_keeps_target_witness :
  let e := {| cwd := [lit "home"]; module_dirname := [lit "opt"];
              argv0 := [lit "usr"; lit "node"];
              faults := fun _ => false; stack_limit := 8 |} in
  let w := {| Clone.fs := Dir [(lit "home",
                 Dir [(lit "sns-demo", Dir []);
                      (lit "zoo", Dir [(lit "keep.txt", File (lit "mine"))])])];
              Clone.ui := []; Clone.console := [] |} in
  Clone.fs (Clone.action e (lit "zoo") w) = Clone.fs w
  /\ Clone.console (Clone.action e (lit "zoo") w) = Clone.console w
  /\ (exists item, Clone.ui (Clone.action e (lit "zoo") w) = item :: Clone.ui w)
  /\ (validateProjectName (trim (lit "zoo")) = true ->
      existsSync (Clone.fs w) (Clone.getTemplatePath e (Clone.fs w)) = true ->
      Clone.action e (lit "zoo") w
      = Clone.addItem ERROR
          (Clone.TargetExists (path_join (cwd e) [trim (lit "zoo")])) w).
Proof.
  intros e w. apply (collision_keeps_target e (lit "zoo") w). reflexivity.
Defined.

(** C6.  When the cloner throws, the run ends with the error item of
    that throw on top of the start notice.  The destination, if it
    exists by then, is removed with all below it; when the removal is
    refused, the line of the warning is added and the error item is
    there all the same. *)
Theorem clone_failure_reported :
  forall (e : env) (args : jsstring) (w : Clone.world) (err : error) (t : node),
    let projectName := trim args in
    let templatePath := Clone.getTemplatePath e (Clone.fs w) in
    let targetPath := path_join (cwd e) [projectName] in
    let w' := Clone.action e args w in
    validateProjectName projectName = true ->
    existsSync (Clone.fs w) templatePath = true ->
    existsSync (Clone.fs w) targetPath = false ->
    Clone.copyAndReplaceDir e (stack_limit e) templatePath targetPath
      (lit "demo") projectName (Clone.fs w) = (Throw err, t) ->
    Clone.ui w'
    = {| Clone.item_type := ERROR; Clone.item_text_of := Clone.CreateFailed err |}
      :: {| Clone.item_type := INFO; Clone.item_text_of := Clone.Starting projectName |}
      :: Clone.ui w
    /\ (existsSync t targetPath = false ->
        Clone.fs w' = t /\ Clone.console w' = Clone.console w)
    /\ (existsSync t targetPath = true ->
        faults e (Rm targetPath) = false ->
        Clone.fs w' = remove_path targetPath t
        /\ existsSync (Clone.fs w') targetPath = false
        /\ Clone.console w' = Clone.console w)
    /\ (existsSync t targetPath = true ->
        faults e (Rm targetPath) = true ->
        Clone.fs w' = t
        /\ Clone.console w'
           = FsError EACCES (Rm targetPath) :: Clone.console w).
Proof.
  intros e args w err t projectName templatePath targetPath w'
    Hvalid Htemplate Htarget Hclone.
  assert (Htp : targetPath = cwd e ++ [projectName])
    by (apply target_path; assumption).
  subst w'. unfold Clone.action.
  fold projectName. rewrite Hvalid. cbn [negb].
  fold templatePath. rewrite Htemplate. cbn [negb].
  fold targetPath. rewrite Htarget.
  cbn [Clone.addItem Clone.fs]. rewrite Hclone.
  clearbody targetPath.
  cbn [Clone.set_fs Clone.fs Clone.ui Clone.console].
  unfold rmSync, guarded.
  destruct (existsSync t targetPath) eqn:Hex.
  - destruct (faults e (Rm targetPath)) eqn:Hf; cbn.
    + repeat split; try discriminate; reflexivity.
    + repeat split; try discriminate; try reflexivity.
      unfold existsSync.
      rewrite lookup_remove_path; [reflexivity|].
      rewrite Htp. destruct (cwd e); discriminate.
  - cbn. repeat split; try discriminate; reflexivity.
Qed.

Lemma clone_failure_reported_witness :
  let e := {| cwd := [lit "home"]; module_dirname := [lit "opt"];
              argv0 := [lit "usr"; lit "node"];
              faults := fun _ => false; stack_limit := 8 |} in
  let w := {| Clone.fs := Dir [(lit "home", Dir [(lit "sns-demo", File (lit "x"))])];
              Clone.ui := []; Clone.console := [] |} in
  let w' := Clone.action e (lit "zoo") w in
  Clone.ui w'
  = [ {| Clone.item_type := ERROR;
         Clone.item_text_of :=
           Clone.CreateFailed
             (FsError ENOTDIR (Readdir [lit "home"; lit "sns-demo"])) |};
      {| Clone.item_type := INFO;
         Clone.item_text_of := Clone.Starting (lit "zoo") |} ]
  /\ existsSync (Clone.fs w') [lit "home"; lit "zoo"] = false.
Proof.
  intros e w w'.
  pose proof (clone_failure_reported e (lit "zoo") w
                (FsError ENOTDIR (Readdir [lit "home"; lit "sns-demo"]))
                (Dir [(lit "home", Dir [(lit "sns-demo", File (lit "x"));
                                        (lit "zoo", Dir [])])])
                eq_refl eq_refl eq_refl eq_refl) as (Hui & _ & Hrm & _).
  split.
  - exact Hui.
  - exact (proj1 (proj2 (Hrm eq_refl eq_refl))).
Defined.

(** ** Generator-driven variant *)

Lemma allPomsExist_forallb (e : env) (t : node) (projectName : jsstring) :
  Generator.allPomsExist e t projectName
  = forallb (existsSync t) (descriptor_paths e projectName).
Proof.
  unfold Generator.allPomsExist, descriptor_paths, module_names.
  cbn [map forallb]. rewrite andb_true_r, !andb_assoc. reflexivity.
Qed.

Lemma descriptor_paths_count (e : env) (projectName : jsstring) :
  length (descriptor_paths e projectName) = 6.
Proof. reflexivity. Qed.

Lemma is_prefix_app_same (c a b : path) :
  is_prefix (c ++ a) (c ++ b) = is_prefix a b.
Proof.
  induction c as [|x c IH]; [reflexivity|].
  cbn [app is_prefix]. now rewrite str_eqb_refl.
Qed.

Lemma is_prefix_refl (a : path) : is_prefix a a = true.
Proof. induction a as [|x a IH]; simpl; [reflexivity|]. now rewrite str_eqb_refl. Qed.

Lemma descriptor_paths_valid (e : env) (projectName : jsstring) :
  validateProjectName projectName = true ->
  descriptor_paths e projectName
  = map (app (cwd e))
      ([projectName ++ lit "-parent"; lit "pom.xml"]
       :: map (fun m => [projectName ++ lit "-parent";
                         projectName ++ lit "-" ++ m; lit "pom.xml"])
            module_names).
Proof.
  intros H. unfold descriptor_paths, module_names. cbn [map].
  repeat (rewrite path_join_segments
            by (cbn [forallb]; rewrite !valid_name_segment by (assumption || reflexivity);
                reflexivity)).
  reflexivity.
Qed.

Lemma non_descriptor_paths_valid (e : env) (projectName : jsstring) :
  validateProjectName projectName = true ->
  non_descriptor_paths e projectName
  = map (app (cwd e))
      [ [projectName ++ lit "-parent"; projectName ++ lit "-start"; lit "src";
         lit "main"; lit "java"; lit "com"; lit "xiaohongshu"; lit "sns";
         Generator.collapsed projectName; lit "start"; lit "Application.java"];
        [projectName ++ lit "-parent"; lit "README.md"];
        [projectName ++ lit "-parent"; lit ".gitignore"] ].
Proof.
  intros H. unfold non_descriptor_paths. cbn [map].
  repeat (rewrite path_join_segments
            by (cbn [forallb];
                rewrite ?valid_name_segment by (assumption || reflexivity);
                rewrite ?collapsed_segment by assumption;
                reflexivity)).
  reflexivity.
Qed.

Lemma descriptor_apart (e : env) (projectName : jsstring) (p q : path) :
  validateProjectName projectName = true ->
  In p (descriptor_paths e projectName) ->
  In q (non_descriptor_paths e projectName) ->
  is_prefix q p = false.
Proof.
  intros Hvalid Hp Hq.
  rewrite descriptor_paths_valid in Hp by assumption.
  rewrite non_descriptor_paths_valid in Hq by assumption.
  destruct (valid_name_units projectName Hvalid) as (z & t' & Hn & Hz & _).
  assert (H82 : (82 =? z)%N = false).
  { unfold lower, in_range in Hz. apply andb_true_iff in Hz as [Hz _].
    apply N.leb_le in Hz. apply N.eqb_neq. lia. }
  assert (H46 : (46 =? z)%N = false).
  { unfold lower, in_range in Hz. apply andb_true_iff in Hz as [Hz _].
    apply N.leb_le in Hz. apply N.eqb_neq. lia. }
  unfold module_names in Hp. cbn [map In] in Hp, Hq.
  repeat (destruct Hq as [<-|Hq]); try contradiction;
    repeat (destruct Hp as [<-|Hp]); try contradiction;
    rewrite is_prefix_app_same; cbn [is_prefix];
    rewrite str_eqb_refl, ?andb_false_r; try reflexivity;
    cbn [andb]; rewrite ?andb_true_r;
    try (vm_compute; reflexivity);
    rewrite Hn; cbn [app str_eqb lit list_ascii_of_string map];
    change (N_of_ascii "R") with 82%N; change (N_of_ascii ".") with 46%N;
    rewrite ?H82, ?H46; reflexivity.
Qed.

(** C5.  [allPomsExist] holds exactly when each of the six descriptor
    files exists: the root descriptor and the descriptors of the modules
    app, domain, infrastructure, common and start.  One missing file
    makes it false.  It is the same on two file systems that agree on
    the six files; for a valid name, writing or removing one of the
    three files of the second phase does not change it. *)
Theorem phase_detection :
  (forall e t projectName,
     Generator.allPomsExist e t projectName = true <->
     forall p, In p (descriptor_paths e projectName) -> existsSync t p = true)
  /\ (forall e projectName, length (descriptor_paths e projectName) = 6)
  /\ (forall e t projectName p,
        In p (descriptor_paths e projectName) -> existsSync t p = false ->
        Generator.allPomsExist e t projectName = false)
  /\ (forall e t t' projectName,
        (forall p, In p (descriptor_paths e projectName) ->
                   existsSync t p = existsSync t' p) ->
        Generator.allPomsExist e t projectName
        = Generator.allPomsExist e t' projectName)
  /\ (forall e t projectName q,
        validateProjectName projectName = true ->
        In q (non_descriptor_paths e projectName) ->
        (forall c t', write_file q c t = inr t' ->
           Generator.allPomsExist e t' projectName
           = Generator.allPomsExist e t projectName)
        /\ Generator.allPomsExist e (remove_path q t) projectName
           = Generator.allPomsExist e t projectName).
Proof.
  assert (Hagree : forall e t t' projectName,
        (forall p, In p (descriptor_paths e projectName) ->
                   existsSync t p = existsSync t' p) ->
        Generator.allPomsExist e t projectName
        = Generator.allPomsExist e t' projectName).
  { intros e t t' projectName H. rewrite !allPomsExist_forallb.
    induction (descriptor_paths e projectName) as [|p l IH]; [reflexivity|].
    cbn [forallb]. rewrite (H p) by (left; reflexivity).
    rewrite IH; [reflexivity|]. intros p' Hp'. apply H. now right. }
  split; [|split; [|split; [|split]]].
  - intros e t projectName. rewrite allPomsExist_forallb. apply forallb_forall.
  - reflexivity.
  - intros e t projectName p Hin Hp.
    destruct (Generator.allPomsExist e t projectName) eqn:H; [|reflexivity].
    rewrite allPomsExist_forallb, forallb_forall in H.
    rewrite (H p Hin) in Hp. discriminate.
  - exact Hagree.
  - intros e t projectName q Hvalid Hq. split.
    + intros c t' Hw. apply Hagree. intros p Hp.
      apply (exists_write_file_other q c p t t' Hw).
      intros ->. pose proof (descriptor_apart e projectName q q Hvalid Hp Hq) as H.
      rewrite is_prefix_refl in H. discriminate.
    + apply Hagree. intros p Hp. apply exists_remove_path_other.
      now apply (descriptor_apart e projectName).
Qed.

Lemma phase_detection_witness :
  let e := {| cwd := [lit "home"]; module_dirname := [lit "opt"];
              argv0 := [lit "usr"; lit "node"];
              faults := fun _ => false; stack_limit := 8 |} in
  let pom := (lit "pom.xml", File (lit "<project/>")) in
  let t := Dir [(lit "home", Dir [(lit "zoo-parent",
             Dir [pom; (lit "zoo-app", Dir [pom]); (lit "zoo-domain", Dir [pom]);
                  (lit "zoo-infrastructure", Dir [pom]);
                  (lit "zoo-common", Dir [pom]); (lit "zoo-start", Dir [pom])])])] in
  (forall p, In p (descriptor_paths e (lit "zoo")) -> existsSync t p = true)
  /\ Generator.allPomsExist e (remove_path [lit "home"; lit "zoo-parent"; lit "README.md"] t)
       (lit "zoo") = Generator.allPomsExist e t (lit "zoo").
Proof.
  intros e pom t. split.
  - apply (proj1 (proj1 phase_detection e t (lit "zoo"))). reflexivity.
  - apply (proj2 (proj2 (proj2 (proj2 phase_detection))) e t (lit "zoo")
             [lit "home"; lit "zoo-parent"; lit "README.md"]).
    + reflexivity.
    + right. left. reflexivity.
Defined.

(** C9.  A run of the generator-driven command leaves the file system
    as it was.  It adds one item; on an invalid name that is the error
    and nothing is returned, otherwise an instruction document is
    returned: the one for the remaining files when the six descriptors
    exist, the one for the descriptors when they do not. *)
Theorem generator_writes_nothing :
  forall (e : env) (args : jsstring) (w : Generator.world),
    let r := Generator.action e args w in
    Generator.fs (fst r) = Generator.fs w
    /\ (exists item, Generator.ui (fst r) = item :: Generator.ui w)
    /\ (validateProjectName (trim args) = false ->
        snd r = None
        /\ Generator.ui (fst r)
           = {| Generator.item_type := ERROR;
                Generator.item_text_of := Generator.InvalidName |}
             :: Generator.ui w)
    /\ (validateProjectName (trim args) = true ->
        snd r
        = Some (Generator.submit_prompt
                  (if Generator.allPomsExist e (Generator.fs w) (trim args)
                   then Generator.RemainingFiles (trim args)
                          (Generator.collapsed (trim args))
                   else Generator.PomFiles (trim args)
                          (Generator.collapsed (trim args))))).
Proof.
  intros e args w. unfold Generator.action.
  destruct (validateProjectName (trim args)); cbn [negb].
  - destruct (Generator.allPomsExist e (Generator.fs w) (trim args));
      cbn [fst snd Generator.addItem Generator.fs Generator.ui];
      repeat split; try discriminate; try reflexivity; eexists; reflexivity.
  - cbn [fst snd Generator.addItem Generator.fs Generator.ui];
      repeat split; try discriminate; try reflexivity; eexists; reflexivity.
Qed.

Lemma generator_writes_nothing_witness :
  let e := {| cwd := [lit "home"]; module_dirname := [lit "opt"];
              argv0 := [lit "usr"; lit "node"];
              faults := fun _ => false; stack_limit := 8 |} in
  let w := {| Generator.fs := Dir [(lit "home", Dir [])]; Generator.ui := [] |} in
  snd (Generator.action e (lit " zoo ") w)
  = Some (Generator.submit_prompt (Generator.PomFiles (lit "zoo") (lit "zoo"))).
Proof.
  intros e w.
  exact (proj2 (proj2 (proj2 (generator_writes_nothing e (lit " zoo ") w))) eq_refl).
Defined.

(* ================================================================= *)
(** * Part IV - further properties of the code *)
(* ================================================================= *)

(** ** Template locator *)

Lemma find_first {A} (f : A -> bool) (l : list A) (x : A) :
  find f l = Some x ->
  exists a b, l = a ++ x :: b /\ forallb (fun y => negb (f y)) a = true
              /\ f x = true.
Proof.
  induction l as [|y l IH]; simpl; [discriminate|].
  destruct (f y) eqn:Hy.
  - intros H. inversion H; subst y. exists [], l. auto.
  - intros H. destruct (IH H) as (a & b & -> & Ha & Hx).
    exists (y :: a), b. simpl. rewrite Hy. auto.
Qed.

Lemma find_nothing {A} (f : A -> bool) (l : list A) :
  find f l = None -> forallb (fun y => negb (f y)) l = true.
Proof.
  induction l as [|y l IH]; simpl; [reflexivity|].
  destruct (f y); [discriminate|]. exact IH.
Qed.

(** X1.  [getTemplatePath] returns the first of the eight candidate paths
    that exists: no candidate before it exists.  When it returns a path
    that does not exist, no candidate exists and the path is
    [<cwd>/sns-demo]. *)
Theorem getTemplatePath_first_existing :
  forall (e : env) (t : node),
    (existsSync t (Clone.getTemplatePath e t) = true ->
     exists earlier later,
       Clone.possiblePaths e = earlier ++ Clone.getTemplatePath e t :: later
       /\ forallb (fun p => negb (existsSync t p)) earlier = true)
    /\ (existsSync t (Clone.getTemplatePath e t) = false ->
        Clone.getTemplatePath e t = path_join (cwd e) [lit "sns-demo"]
        /\ forallb (fun p => negb (existsSync t p)) (Clone.possiblePaths e) = true).
Proof.
  intros e t. unfold Clone.getTemplatePath.
  destruct (find (existsSync t) (Clone.possiblePaths e)) as [p|] eqn:Hf.
  - destruct (find_first _ _ _ Hf) as (a & b & Hl & Ha & Hp). split.
    + intros _. eauto.
    + intros H. rewrite Hp in H. discriminate.
  - pose proof (find_nothing _ _ Hf) as Hnone. split.
    + intros H. exfalso.
      unfold Clone.possiblePaths in Hnone. cbn [forallb] in Hnone.
      apply andb_true_iff in Hnone as [H1 _]. rewrite H in H1. discriminate.
    + auto.
Qed.

Lemma getTemplatePath_first_existing_witness :
  let e := {| cwd := [lit "home"]; module_dirname := [lit "opt"; lit "cli"];
              argv0 := [lit "usr"; lit "node"];
              faults := fun _ => false; stack_limit := 8 |} in
  let t := Dir [(lit "opt", Dir [(lit "template", Dir [])])] in
  exists earlier later,
    Clone.possiblePaths e = earlier ++ [lit "opt"; lit "template"] :: later
    /\ forallb (fun p => negb (existsSync t p)) earlier = true.
Proof.
  intros e t.
  exact (proj1 (getTemplatePath_first_existing e t) eq_refl).
Defined.

(** ** Paths built from a valid name *)

(** X2.  A valid project name cannot leave the working directory: the target
    is the entry of that name in the working directory, and the six
    descriptor files probed by the generator-driven command lie in
    [<cwd>/<name>-parent]. *)
Theorem valid_name_stays_in_cwd :
  forall (e : env) (projectName : jsstring),
    validateProjectName projectName = true ->
    path_join (cwd e) [projectName] = cwd e ++ [projectName]
    /\ dirname (path_join (cwd e) [projectName]) = cwd e
    /\ forall p, In p (descriptor_paths e projectName) ->
         is_prefix (cwd e ++ [projectName ++ lit "-parent"]) p = true.
Proof.
  intros e projectName Hvalid.
  rewrite (target_path e projectName Hvalid). split; [reflexivity|].
  split; [apply dirname_child|].
  intros p Hp. rewrite descriptor_paths_valid in Hp by assumption.
  apply is_prefix_spec.
  unfold module_names in Hp. cbn [map In] in Hp.
  repeat (destruct Hp as [<-|Hp]); try contradiction;
    eexists; rewrite <- app_assoc; cbn [app]; reflexivity.
Qed.

Lemma valid_name_stays_in_cwd_witness :
  path_join [lit "home"; lit "me"] [lit "my-app2"]
  = [lit "home"; lit "me"; lit "my-app2"].
Proof.
  exact (proj1 (valid_name_stays_in_cwd
                  {| cwd := [lit "home"; lit "me"]; module_dirname := [];
                     argv0 := []; faults := fun _ => false; stack_limit := 0 |}
                  (lit "my-app2") eq_refl)).
Defined.

(** X3.  For a valid project name the renaming of a directory entry gives a
    name of an entry again (not empty, without [/], neither [.] nor
    [..]), so that the destination of the entry is an entry of the
    destination directory. *)
Theorem renamed_entry_stays_in_directory :
  forall (newName item : jsstring) (destDir : path),
    validateProjectName newName = true ->
    segment_ok item = true ->
    segment_ok (destItemName item newName) = true
    /\ path_join destDir [destItemName item newName]
       = destDir ++ [destItemName item newName]
    /\ dirname (path_join destDir [destItemName item newName]) = destDir.
Proof.
  intros newName item destDir Hvalid Hitem.
  pose proof (destItemName_segment newName Hvalid item Hitem) as Hseg.
  assert (Hj : path_join destDir [destItemName item newName]
               = destDir ++ [destItemName item newName]).
  { apply path_join_segments. cbn [forallb]. now rewrite Hseg. }
  rewrite Hj. repeat split; [assumption|apply dirname_child].
Qed.

Lemma renamed_entry_stays_in_directory_witness :
  path_join [lit "home"; lit "zoo"] [destItemName (lit "sns-demo-app") (lit "zoo")]
  = [lit "home"; lit "zoo"] ++ [destItemName (lit "sns-demo-app") (lit "zoo")].
Proof.
  exact (proj1 (proj2 (renamed_entry_stays_in_directory (lit "zoo")
                         (lit "sns-demo-app") [lit "home"; lit "zoo"]
                         eq_refl eq_refl))).
Defined.

(** ** The name without its hyphens *)

Lemma remove_hyphens_from (total : nat) (s : jsstring) :
  forall before,
    replace_from (Lit (lit "-")) [] total before 0 s
    = filter (fun c => negb (c =? hyphen)%N) s.
Proof.
  induction s as [|x s IH]; intros before.
  - reflexivity.
  - destruct (replace_lit_cases 45%N [] [] eq_refl total before (x :: s))
      as [(H & _)|[(rest & H & Ho)|(a & s' & H & Hn & Ho)]].
    + discriminate.
    + cbn [app] in H. inversion H; subst x rest.
      etransitivity; [exact Ho|]. cbn [app filter]. apply IH.
    + inversion H; subst a s'.
      etransitivity; [exact Ho|]. cbn [filter].
      cbn [starts_with] in Hn. rewrite andb_true_r in Hn.
      unfold hyphen. rewrite N.eqb_sym, Hn. cbn [negb]. f_equal. apply IH.
Qed.

Lemma filter_hyphen_class (name : jsstring) :
  forallb lower_digit_hyphen name = true ->
  forallb lower_digit (filter (fun c => negb (c =? hyphen)%N) name) = true.
Proof.
  induction name as [|c name IH]; [reflexivity|]. intros Hall.
  cbn [forallb] in Hall. apply andb_true_iff in Hall as [Hc Hall].
  cbn [filter]. destruct (N.eqb_spec c hyphen) as [->|Hne]; cbn [negb].
  - now apply IH.
  - cbn [forallb]. rewrite (IH Hall), andb_true_r.
    apply lower_digit_not_hyphen. split; [|assumption].
    now apply allowed_unit_class.
Qed.

(** X4.  [newName.replace(/-/g, '')], the name used in the package namespace
    and in the path of the start class, is the name with its hyphens
    taken out; for a valid name it begins with the letter the name
    begins with and consists of lowercase letters and digits. *)
Theorem collapsed_name :
  (forall name,
     Generator.collapsed name = filter (fun c => negb (c =? hyphen)%N) name)
  /\ (forall name,
        validateProjectName name = true ->
        forallb lower_digit (Generator.collapsed name) = true
        /\ exists z rest rest',
             name = z :: rest /\ lower z = true
             /\ Generator.collapsed name = z :: rest').
Proof.
  assert (H : forall name,
     Generator.collapsed name = filter (fun c => negb (c =? hyphen)%N) name).
  { intros name. unfold Generator.collapsed, replace_global.
    apply remove_hyphens_from. }
  split; [exact H|].
  intros name Hvalid. rewrite H.
  destruct (valid_name_units name Hvalid) as (z & t' & Hn & Hz & Hall).
  split.
  - now apply filter_hyphen_class.
  - exists z, t', (filter (fun c => negb (c =? hyphen)%N) t').
    repeat split; try assumption. rewrite Hn. cbn [filter].
    replace (z =? hyphen)%N with false; [reflexivity|].
    symmetry. apply N.eqb_neq. intros ->. discriminate.
Qed.

Lemma collapsed_name_witness :
  forallb lower_digit (Generator.collapsed (lit "my-app2")) = true.
Proof.
  exact (proj1 (proj2 collapsed_name (lit "my-app2") eq_refl)).
Defined.

(** ** The argument of the command *)

Lemma trim_start_space (ws s : jsstring) :
  forallb white_space ws = true -> trim_start (ws ++ s) = trim_start s.
Proof.
  induction ws as [|x ws IH]; [reflexivity|]. cbn [forallb app trim_start].
  intros H. apply andb_true_iff in H as [Hx Hws]. rewrite Hx. auto.
Qed.

Lemma trim_start_blank (s : jsstring) :
  forallb white_space s = true <-> trim_start s = [].
Proof.
  induction s as [|x s IH]; cbn [forallb trim_start]; [tauto|].
  destruct (white_space x); cbn [andb]; [exact IH|]. split; discriminate.
Qed.

Lemma trim_start_app (a b : jsstring) :
  trim_start a <> [] -> trim_start (a ++ b) = trim_start a ++ b.
Proof.
  induction a as [|x a IH]; [contradiction|]. cbn [app trim_start].
  destruct (white_space x); [exact IH|reflexivity].
Qed.

Lemma trim_padding (ws1 a ws2 : jsstring) :
  forallb white_space ws1 = true ->
  forallb white_space ws2 = true ->
  trim (ws1 ++ a ++ ws2) = trim a.
Proof.
  intros H1 H2. unfold trim. rewrite trim_start_space by assumption.
  destruct (trim_start a) as [|y r] eqn:Ha.
  - apply trim_start_blank in Ha.
    assert (Hb : trim_start (a ++ ws2) = []).
    { apply trim_start_blank. rewrite forallb_app, Ha, H2. reflexivity. }
    now rewrite Hb.
  - rewrite trim_start_app by (rewrite Ha; discriminate).
    rewrite Ha, rev_app_distr. rewrite trim_start_space; [reflexivity|].
    rewrite forallb_forall in H2 |- *. intros c Hc. apply H2.
    now apply in_rev.
Qed.

(** X5.  White space before and after the project name makes no difference
    to either command. *)
Theorem padding_is_ignored :
  forall (e : env) (ws1 args ws2 : jsstring),
    forallb white_space ws1 = true ->
    forallb white_space ws2 = true ->
    (forall w, Clone.action e (ws1 ++ args ++ ws2) w = Clone.action e args w)
    /\ (forall w, Generator.action e (ws1 ++ args ++ ws2) w
                  = Generator.action e args w).
Proof.
  intros e ws1 args ws2 H1 H2.
  pose proof (trim_padding ws1 args ws2 H1 H2) as Ht.
  split; intros w.
  - unfold Clone.action. now rewrite Ht.
  - unfold Generator.action. now rewrite Ht.
Qed.

Lemma padding_is_ignored_witness :
  let e := {| cwd := [lit "home"]; module_dirname := []; argv0 := [];
              faults := fun _ => false; stack_limit := 0 |} in
  let w := {| Generator.fs := Dir [(lit "home", Dir [])]; Generator.ui := [] |} in
  Generator.action e (lit "  " ++ lit "zoo" ++ [9%N; 10%N]) w
  = Generator.action e (lit "zoo") w.
Proof.
  intros e w.
  exact (proj2 (padding_is_ignored e (lit "  ") (lit "zoo") [9%N; 10%N]
                  eq_refl eq_refl) w).
Defined.

(** ** Every run ends with a message *)

(** X6.  A run of the cloning command adds one or two items and the newest
    says how the run ended: it is an error, or it is the success
    notice, and then the cloner has returned without a throw and the
    file system is the one it left.  A run that ends before the cloner
    is started (one item, an error) changes neither the file system nor
    the console. *)
Theorem run_ends_with_message :
  forall (e : env) (args : jsstring) (w : Clone.world),
    let projectName := trim args in
    let w' := Clone.action e args w in
    exists item,
      (Clone.ui w' = item :: Clone.ui w
       /\ Clone.item_type item = ERROR
       /\ Clone.fs w' = Clone.fs w /\ Clone.console w' = Clone.console w)
      \/ (Clone.ui w'
          = item :: {| Clone.item_type := INFO;
                       Clone.item_text_of := Clone.Starting projectName |}
                 :: Clone.ui w
          /\ (Clone.item_type item = ERROR
              \/ (item = {| Clone.item_type := INFO;
                            Clone.item_text_of :=
                              Clone.Created projectName
                                (path_join (cwd e) [projectName]) |}
                  /\ Clone.copyAndReplaceDir e (stack_limit e)
                       (Clone.getTemplatePath e (Clone.fs w))
                       (path_join (cwd e) [projectName]) (lit "demo")
                       projectName (Clone.fs w)
                     = (Done tt, Clone.fs w')
                  /\ Clone.console w' = Clone.console w))).
Proof.
  intros e args w projectName w'. subst w'. unfold Clone.action.
  fold projectName.
  destruct (validateProjectName projectName); cbn [negb];
    [|eexists; left; repeat split].
  destruct (existsSync (Clone.fs w) (Clone.getTemplatePath e (Clone.fs w)));
    cbn [negb]; [|eexists; left; repeat split].
  destruct (existsSync (Clone.fs w) (path_join (cwd e) [projectName]));
    [eexists; left; repeat split|].
  cbn [Clone.addItem Clone.fs].
  destruct (Clone.copyAndReplaceDir e (stack_limit e)
              (Clone.getTemplatePath e (Clone.fs w))
              (path_join (cwd e) [projectName]) (lit "demo") projectName
              (Clone.fs w)) as [[[]|err] t].
  - eexists. right. split; [reflexivity|]. right. repeat split.
  - cbn [Clone.set_fs Clone.fs Clone.ui Clone.console].
    unfold rmSync, guarded.
    destruct (existsSync t (path_join (cwd e) [projectName]));
      [destruct (faults e (Rm (path_join (cwd e) [projectName])))|];
      eexists; right; (split; [reflexivity|]); left; reflexivity.
Qed.

(** ** The [oldName] argument *)

Lemma for_each_ext {A} (l : list A) (f g : A -> M unit) :
  (forall a t, f a t = g a t) -> forall t, for_each l f t = for_each l g t.
Proof.
  intros H. induction l as [|a l IH]; intros t; [reflexivity|].
  cbn [for_each]. unfold bind. rewrite H.
  destruct (g a t) as [[u|err] t1]; [apply IH|reflexivity].
Qed.

(** X7.  The cloner gives one result whatever is passed for [oldName]: the
    ["demo"] of the call in the command has no part in it. *)
Theorem cloner_oldName_irrelevant :
  forall (e : env) (depth : nat) (srcDir destDir : path)
         (o1 o2 newName : jsstring) (t : node),
    Clone.copyAndReplaceDir e depth srcDir destDir o1 newName t
    = Clone.copyAndReplaceDir e depth srcDir destDir o2 newName t.
Proof.
  intros e depth. induction depth as [|d IH];
    intros srcDir destDir o1 o2 newName t; [reflexivity|].
  cbn [Clone.copyAndReplaceDir]. unfold bind.
  destruct (ensure_dir e destDir t) as [[u|err] t1]; [|reflexivity].
  destruct (readdirSync e srcDir t1) as [[items|err] t2]; [|reflexivity].
  apply for_each_ext. intros item t3. unfold bind.
  destruct (statSync e (path_join srcDir [item]) t3) as [[st|err] t4];
    [|reflexivity].
  destruct st; [reflexivity|apply IH|reflexivity].
Qed.

(** ** A clone that ends well *)

Lemma mkdirp_free_slot (dst : path) (root : node) :
  free_slot dst root -> mkdirp dst root = inr (graft dst (Dir []) root).
Proof.
  intros Hslot.
  assert (Hok : exists t', mkdirp dst root = inr t').
  { destruct Hslot as (par & seg & D & -> & Hpar & Hseg).
    revert root Hpar. induction par as [|z par IH]; intros root Hpar.
    - cbn [lookup] in Hpar. inversion Hpar; subst root.
      cbn [app mkdirp]. rewrite Hseg. cbn [mkdirp]. eauto.
    - cbn [lookup] in Hpar. destruct root as [c|es|]; try discriminate.
      destruct (find_entry z es) as [u|] eqn:Hz; [|discriminate].
      cbn [app mkdirp]. rewrite Hz.
      destruct (IH u Hpar) as (u' & Hu). rewrite Hu. eauto. }
  destruct Hok as (t' & Ht'). rewrite Ht'. f_equal.
  apply mkdirp_graft; [now apply free_slot_absent|assumption].
Qed.

Lemma height_entry (es : list (jsstring * node)) (m : jsstring) (v : node) :
  In (m, v) es -> S (height v) <= height (Dir es).
Proof.
  intros Hin. cbn [height]. apply le_n_S.
  induction es as [|e es IH]; [contradiction|].
  destruct Hin as [->|Hin]; cbn [snd].
  - apply Nat.le_max_l.
  - etransitivity; [apply (IH Hin)|apply Nat.le_max_r].
Qed.

Section CloneSucceeds.

Variables (e : env) (oldName newName : jsstring).
Hypothesis newName_valid : validateProjectName newName = true.
Hypothesis no_faults : forall op, faults e op = false.

Lemma clone_succeeds (depth : nat) :
  forall src dst es root,
    height (Dir es) <= depth ->
    names_ok (Dir es) = true ->
    rename_distinct newName (Dir es) = true ->
    diverge src dst ->
    lookup src root = Some (Dir es) ->
    free_slot dst root ->
    Clone.copyAndReplaceDir e depth src dst oldName newName root
    = (Done tt, graft dst (cloned oldName newName (Dir es)) root).
Proof.
  induction depth as [|d IHd];
    intros src dst es root Hheight Hnames Hren Hdiv Hsrc Hslot.
  { cbn [height] in Hheight. lia. }
  cbn [Clone.copyAndReplaceDir]. unfold bind at 1.
  unfold ensure_dir, existsSync. rewrite (free_slot_absent _ _ Hslot).
  cbn [negb]. unfold mkdirSync, guarded. rewrite no_faults.
  rewrite (mkdirp_free_slot _ _ Hslot).
  unfold bind at 1. unfold readdirSync, guarded. rewrite no_faults.
  rewrite (lookup_graft_other dst src) by now apply diverge_sym.
  rewrite Hsrc. rewrite cloned_dir.
  rewrite names_ok_dir in Hnames.
  apply andb_true_iff in Hnames as [Hnames Hsub].
  apply andb_true_iff in Hnames as [Hseg Hdist].
  rewrite rename_distinct_dir in Hren.
  apply andb_true_iff in Hren as [Hrd Hrsub].
  match goal with
  | |- for_each _ ?b _ = _ => set (body := b)
  end.
  assert (Loop : forall l done,
    es = done ++ l ->
    for_each (map fst l) body
      (graft dst (Dir (cloned_entries oldName newName done)) root)
    = (Done tt, graft dst (Dir (cloned_entries oldName newName es)) root)).
  { induction l as [|[m v] l IHl]; intros done Hes.
    - cbn [map for_each]. unfold ret. rewrite Hes, app_nil_r. reflexivity.
    - cbn [map for_each fst].
      set (rk := graft dst (Dir (cloned_entries oldName newName done)) root).
      assert (Hm : segment_ok m = true).
      { rewrite forallb_forall in Hseg. apply Hseg. rewrite Hes, map_app.
        apply in_or_app. right. left. reflexivity. }
      assert (Hm' : segment_ok (destItemName m newName) = true)
        by now apply destItemName_segment.
      assert (Hv : find_entry m es = Some v).
      { rewrite Hes. apply find_entry_middle. now rewrite <- Hes. }
      assert (Hin : In (m, v) es).
      { rewrite Hes. apply in_or_app. right. left. reflexivity. }
      assert (Hlv : lookup (src ++ [m]) rk = Some v).
      { unfold rk.
        rewrite (lookup_graft_other dst (src ++ [m]))
          by (rewrite <- (app_nil_r dst); apply diverge_app;
              now apply diverge_sym).
        rewrite lookup_app, Hsrc. cbn [lookup]. now rewrite Hv. }
      set (Dk := cloned_entries oldName newName done) in *.
      assert (Hfresh : is_other v = false ->
                find_entry (destItemName m newName) Dk = None).
      { intros Hno. apply find_entry_none.
        rewrite Hes, filter_app, map_app in Hrd. cbn [filter snd] in Hrd.
        rewrite Hno in Hrd. cbn [negb map fst] in Hrd.
        apply distinct_middle in Hrd.
        unfold Dk, cloned_entries. rewrite map_map. cbn [fst]. exact Hrd. }
      assert (Hdst : lookup dst rk = Some (Dir Dk)).
      { unfold rk. rewrite <- (app_nil_r dst) at 1.
        now rewrite free_slot_graft. }
      assert (Hstep : forall T, is_other v = false ->
                graft (dst ++ [destItemName m newName]) T rk
                = graft dst (Dir (Dk ++ [(destItemName m newName, T)])) root).
      { intros T Hno. unfold rk. rewrite graft_graft.
        now rewrite set_entry_fresh by auto. }
      assert (Hbody : body m rk
                = (Done tt,
                   graft dst
                     (Dir (cloned_entries oldName newName (done ++ [(m, v)])))
                     root)).
      { unfold body. cbv zeta.
        rewrite !path_join_segments
          by (cbn [forallb]; rewrite ?Hm, ?Hm'; reflexivity).
        unfold bind at 1. unfold statSync, guarded. rewrite no_faults, Hlv.
        rewrite cloned_entries_app. fold Dk.
        destruct v as [c|es'|]; cbn [stats_of].
        - unfold Clone.copyAndReplaceFile. rewrite dirname_child.
          unfold bind at 1.
          rewrite ensure_dir_present by (unfold existsSync; now rewrite Hdst).
          unfold bind at 1. unfold readFileSync, guarded.
          rewrite no_faults, Hlv.
          unfold writeFileSync, guarded. rewrite no_faults.
          rewrite (write_file_graft dst _ _ rk Dk Hdst (Hfresh eq_refl)).
          rewrite (Hstep _ eq_refl). reflexivity.
        - rewrite forallb_forall in Hsub, Hrsub.
          rewrite (IHd (src ++ [m]) (dst ++ [destItemName m newName]) es').
          + rewrite (Hstep _ eq_refl). reflexivity.
          + pose proof (height_entry es m (Dir es') Hin). lia.
          + apply (Hsub _ Hin).
          + apply (Hrsub _ Hin).
          + now apply diverge_app.
          + exact Hlv.
          + unfold rk. apply free_slot_child; auto.
        - unfold ret.
          change (cloned_entries oldName newName [(m, Other)])
            with (@nil (jsstring * node)).
          now rewrite app_nil_r. }
      unfold bind. rewrite Hbody.
      apply (IHl (done ++ [(m, v)])). now rewrite <- app_assoc. }
  apply (Loop es []). reflexivity.
Qed.

End CloneSucceeds.

(** X8.  On a file system that refuses nothing, with room on the stack for
    the height of the template, the clone of a template with proper,
    distinct names and without two entries renamed to one name ends
    without a throw, and the destination is the template renamed and
    rewritten. *)
Theorem clone_ends_well :
  forall (e : env) (depth : nat) (src dst : path) (oldName newName : jsstring)
         (es : list (jsstring * node)) (root : node),
    validateProjectName newName = true ->
    (forall op, faults e op = false) ->
    height (Dir es) <= depth ->
    lookup src root = Some (Dir es) ->
    names_ok (Dir es) = true ->
    rename_distinct newName (Dir es) = true ->
    is_prefix src dst = false ->
    free_slot dst root ->
    exists root',
      Clone.copyAndReplaceDir e depth src dst oldName newName root
      = (Done tt, root')
      /\ lookup dst root' = Some (cloned oldName newName (Dir es))
      /\ lookup src root' = Some (Dir es).
Proof.
  intros e depth src dst oldName newName es root
    Hvalid Hfaults Hheight Hsrc Hnames Hren Hpre Hslot.
  assert (Hdiv : diverge src dst).
  { apply incomparable_diverge; [assumption|].
    destruct (is_prefix dst src) eqn:Hp; [exfalso|reflexivity].
    apply is_prefix_spec in Hp as (c & ->).
    apply lookup_prefix in Hsrc as (u & Hu).
    rewrite (free_slot_absent _ _ Hslot) in Hu. discriminate. }
  exists (graft dst (cloned oldName newName (Dir es)) root).
  split; [|split].
  - apply clone_succeeds; assumption.
  - rewrite <- (app_nil_r dst) at 1. now rewrite free_slot_graft.
  - rewrite lookup_graft_other by now apply diverge_sym. exact Hsrc.
Qed.

Lemma clone_ends_well_witness :
  let e := {| cwd := [lit "home"]; module_dirname := [lit "opt"];
              argv0 := [lit "usr"; lit "node"];
              faults := fun _ => false; stack_limit := 8 |} in
  let es := [(lit "pom.xml", File (lit "<name>sns-demo</name>"));
             (lit "sns-demo-app", Dir [(lit "a.txt", File (lit "sns-demo"))]);
             (lit "pipe", Other)] in
  let root := Dir [(lit "home", Dir [(lit "sns-demo", Dir es)])] in
  exists root',
    Clone.copyAndReplaceDir e 2 [lit "home"; lit "sns-demo"]
      [lit "home"; lit "zoo"] (lit "demo") (lit "zoo") root = (Done tt, root')
    /\ lookup [lit "home"; lit "zoo"] root'
       = Some (cloned (lit "demo") (lit "zoo") (Dir es))
    /\ lookup [lit "home"; lit "sns-demo"] root' = Some (Dir es).
Proof.
  intros e es root.
  apply (clone_ends_well e 2 [lit "home"; lit "sns-demo"]
           [lit "home"; lit "zoo"] (lit "demo") (lit "zoo") es root).
  - reflexivity.
  - intros op. reflexivity.
  - vm_compute. lia.
  - reflexivity.
  - reflexivity.
  - reflexivity.
  - reflexivity.
  - exists [lit "home"], (lit "zoo"), [(lit "sns-demo", Dir es)].
    repeat split; reflexivity.
Defined.

(** X9.  A run of the command on a valid name, with a well-formed template
    directory that is not above the target, a working directory without
    an entry of that name, no refusals and room on the stack: the two
    items are the start notice and the success notice, the console is
    as it was, and the target is the template renamed and rewritten. *)
Theorem create_ends_well :
  forall (e : env) (args : jsstring) (w : Clone.world)
         (es D : list (jsstring * node)),
    let projectName := trim args in
    let templatePath := Clone.getTemplatePath e (Clone.fs w) in
    let targetPath := cwd e ++ [projectName] in
    let w' := Clone.action e args w in
    validateProjectName projectName = true ->
    (forall op, faults e op = false) ->
    lookup templatePath (Clone.fs w) = Some (Dir es) ->
    names_ok (Dir es) = true ->
    rename_distinct projectName (Dir es) = true ->
    height (Dir es) <= stack_limit e ->
    lookup (cwd e) (Clone.fs w) = Some (Dir D) ->
    find_entry projectName D = None ->
    is_prefix templatePath targetPath = false ->
    Clone.ui w'
    = {| Clone.item_type := INFO;
         Clone.item_text_of := Clone.Created projectName targetPath |}
      :: {| Clone.item_type := INFO;
            Clone.item_text_of := Clone.Starting projectName |}
      :: Clone.ui w
    /\ Clone.console w' = Clone.console w
    /\ lookup targetPath (Clone.fs w')
       = Some (cloned (lit "demo") projectName (Dir es))
    /\ lookup templatePath (Clone.fs w') = Some (Dir es).
Proof.
  intros e args w es D projectName templatePath targetPath w'
    Hvalid Hfaults Htemplate Hnames Hren Hheight Hcwd Hfree Hpre.
  assert (Hslot : free_slot targetPath (Clone.fs w)).
  { exists (cwd e), projectName, D. auto. }
  assert (Hdiv : diverge templatePath targetPath).
  { apply incomparable_diverge; [assumption|].
    destruct (is_prefix targetPath templatePath) eqn:Hp; [exfalso|reflexivity].
    apply is_prefix_spec in Hp as (c & Hc). rewrite Hc in Htemplate.
    apply lookup_prefix in Htemplate as (u & Hu).
    rewrite (free_slot_absent _ _ Hslot) in Hu. discriminate. }
  pose proof (clone_succeeds e (lit "demo") projectName Hvalid Hfaults
                (stack_limit e) templatePath targetPath es (Clone.fs w)
                Hheight Hnames Hren Hdiv Htemplate Hslot) as Hclone.
  assert (Hact : Clone.action e args w
                 = Clone.addItem INFO (Clone.Created projectName targetPath)
                     (Clone.set_fs
                        (graft targetPath
                           (cloned (lit "demo") projectName (Dir es))
                           (Clone.fs w))
                        (Clone.addItem INFO (Clone.Starting projectName) w))).
  { unfold Clone.action. fold projectName. rewrite Hvalid. cbn [negb].
    fold templatePath. unfold existsSync. rewrite Htemplate. cbn [negb].
    rewrite (target_path e projectName Hvalid). fold targetPath.
    rewrite (free_slot_absent _ _ Hslot).
    cbn [Clone.addItem Clone.fs]. rewrite Hclone. reflexivity. }
  subst w'. rewrite Hact.
  cbn [Clone.set_fs Clone.addItem Clone.fs Clone.ui Clone.console].
  repeat split.
  - pose proof (free_slot_graft targetPath (Clone.fs w)
                  (cloned (lit "demo") projectName (Dir es)) [] Hslot) as Hg.
    rewrite app_nil_r in Hg. exact Hg.
  - rewrite lookup_graft_other by now apply diverge_sym. exact Htemplate.
Qed.

Lemma create_ends_well_witness :
  let e := {| cwd := [lit "home"]; module_dirname := [lit "opt"];
              argv0 := [lit "usr"; lit "node"];
              faults := fun _ => false; stack_limit := 8 |} in
  let es := [(lit "pom.xml", File (lit "<name>sns-demo</name>"));
             (lit "sns-demo-app", Dir [(lit "a.txt", File (lit "sns-demo"))])] in
  let w := {| Clone.fs := Dir [(lit "home", Dir [(lit "sns-demo", Dir es)])];
              Clone.ui := []; Clone.console := [] |} in
  lookup [lit "home"; lit "zoo"] (Clone.fs (Clone.action e (lit "zoo") w))
  = Some (cloned (lit "demo") (lit "zoo") (Dir es)).
Proof.
  intros e es w.
  destruct (create_ends_well e (lit "zoo") w es [(lit "sns-demo", Dir es)])
    as (_ & _ & Hl & _).
  - reflexivity.
  - intros op. reflexivity.
  - reflexivity.
  - reflexivity.
  - reflexivity.
  - vm_compute. lia.
  - reflexivity.
  - reflexivity.
  - reflexivity.
  - exact Hl.
Defined.

(** ** What the cloner can touch *)

Lemma set_entry_same (n : jsstring) (v : node) (es : list (jsstring * node)) :
  find_entry n es = Some v -> set_entry n v es = es.
Proof.
  induction es as [|[m u] es IH]; simpl; [discriminate|].
  destruct (str_eqb n m).
  - intros H. now inversion H.
  - intros H. now rewrite IH.
Qed.

Lemma graft_self (p : path) :
  forall t v, lookup p t = Some v -> graft p v t = t.
Proof.
  induction p as [|n p IH]; intros t v H.
  - simpl in H. now inversion H.
  - cbn [lookup] in H. destruct t as [c|es|]; try discriminate.
    destruct (find_entry n es) as [u|] eqn:Hn; [|discriminate].
    cbn [graft]. rewrite Hn, (IH u v H). now rewrite set_entry_same.
Qed.

Lemma graft_overwrite (p : path) (v v' : node) :
  forall t, graft p v' (graft p v t) = graft p v' t.
Proof.
  induction p as [|n p IH]; intros t; [reflexivity|].
  cbn [graft]. destruct t as [c|es|]; try reflexivity.
  cbn [graft]. now rewrite find_entry_set_same, set_entry_set, IH.
Qed.

Lemma lookup_graft_at (p : path) :
  forall t v X, lookup p t = Some v -> lookup p (graft p X t) = Some X.
Proof.
  induction p as [|n p IH]; intros t v X H; [reflexivity|].
  cbn [lookup] in H. destruct t as [c|es|]; try discriminate.
  destruct (find_entry n es) as [u|] eqn:Hn; [|discriminate].
  cbn [graft lookup]. rewrite find_entry_set_same, Hn. now apply (IH u v).
Qed.

Lemma graft_through_file (p q : path) (X : node) :
  forall t v,
    lookup p t = Some v -> (forall D, v <> Dir D) -> q <> [] ->
    graft (p ++ q) X t = t.
Proof.
  induction p as [|z p IH]; intros t v H Hv Hq.
  - simpl in H. inversion H; subst v. destruct q as [|n q]; [contradiction|].
    cbn [app graft]. destruct t; try reflexivity. now destruct (Hv entries).
  - cbn [lookup] in H. destruct t as [c|es|]; try discriminate.
    destruct (find_entry z es) as [u|] eqn:Hz; [|discriminate].
    cbn [app graft]. rewrite Hz, (IH u v H Hv Hq). now rewrite set_entry_same.
Qed.

Lemma graft_child (p : path) (n : jsstring) (X t : node)
    (D : list (jsstring * node)) :
  lookup p t = Some (Dir D) ->
  graft (p ++ [n]) X t = graft p (Dir (set_entry n X D)) t.
Proof.
  intros H. rewrite <- (graft_self p t (Dir D) H) at 1. apply graft_graft.
Qed.

Lemma write_file_is_graft (q : path) (c : jsstring) :
  forall t t', write_file q c t = inr t' -> t' = graft q (File c) t.
Proof.
  induction q as [|n q IH]; intros t t' H.
  - cbn [write_file] in H. destruct t; try discriminate. now inversion H.
  - cbn [write_file] in H. destruct t as [cc|es|]; try discriminate.
    cbn [graft]. destruct (find_entry n es) as [v|] eqn:Hn.
    + destruct (write_file q c v) as [|v'] eqn:Hw; [discriminate|].
      inversion H. now rewrite (IH v v' Hw).
    + destruct q; [|discriminate]. now inversion H.
Qed.

(** *** Names stay proper *)

Lemma str_eqb_sym (a b : jsstring) : str_eqb a b = str_eqb b a.
Proof.
  destruct (str_eqb_spec a b) as [->|H].
  - now rewrite str_eqb_refl.
  - symmetry. apply str_eqb_neq. congruence.
Qed.

Lemma distinct_snoc (l : list jsstring) (n : jsstring) :
  distinct l = true -> existsb (str_eqb n) l = false ->
  distinct (l ++ [n]) = true.
Proof.
  induction l as [|x l IH]; [reflexivity|]. cbn [distinct existsb app].
  intros Hd Hn. apply andb_true_iff in Hd as [Hx Hd].
  apply orb_false_iff in Hn as [Hnx Hn].
  rewrite existsb_app. cbn [existsb]. rewrite orb_false_r.
  apply negb_true_iff in Hx. rewrite Hx, str_eqb_sym, Hnx. cbn.
  now apply IH.
Qed.

Lemma map_fst_set_entry (n : jsstring) (v : node) (es : list (jsstring * node)) :
  map fst (set_entry n v es)
  = if existsb (str_eqb n) (map fst es) then map fst es
    else map fst es ++ [n].
Proof.
  induction es as [|[m u] es IH]; [reflexivity|].
  cbn [set_entry map fst existsb].
  destruct (str_eqb n m); cbn [orb map fst]; [reflexivity|].
  rewrite IH. now destruct (existsb (str_eqb n) (map fst es)).
Qed.

Lemma forallb_set_entry (f : node -> bool) (n : jsstring) (v : node)
    (es : list (jsstring * node)) :
  f v = true ->
  forallb (fun e => f (snd e)) es = true ->
  forallb (fun e => f (snd e)) (set_entry n v es) = true.
Proof.
  intros Hv. induction es as [|[m u] es IH]; cbn [set_entry forallb snd].
  - now rewrite Hv.
  - intros H. apply andb_true_iff in H as [Hu Hes].
    destruct (str_eqb n m); cbn [forallb snd].
    + now rewrite Hv, Hes.
    + now rewrite Hu, IH.
Qed.

Lemma names_ok_set_entry (n : jsstring) (v : node) (es : list (jsstring * node)) :
  segment_ok n = true -> names_ok v = true -> names_ok (Dir es) = true ->
  names_ok (Dir (set_entry n v es)) = true.
Proof.
  intros Hn Hv Hes. rewrite names_ok_dir in *.
  apply andb_true_iff in Hes as [Hes Hsub].
  apply andb_true_iff in Hes as [Hseg Hdist].
  rewrite (forallb_set_entry names_ok) by assumption.
  rewrite map_fst_set_entry.
  destruct (existsb (str_eqb n) (map fst es)) eqn:Hex.
  - now rewrite Hseg, Hdist.
  - rewrite forallb_app, Hseg. cbn [forallb]. rewrite Hn.
    now rewrite distinct_snoc.
Qed.

Lemma names_ok_find (n : jsstring) (es : list (jsstring * node)) (u : node) :
  names_ok (Dir es) = true -> find_entry n es = Some u -> names_ok u = true.
Proof.
  rewrite names_ok_dir. intros H. apply andb_true_iff in H as [_ H].
  induction es as [|[m v] es IH]; cbn [find_entry]; [discriminate|].
  cbn [forallb snd] in H. apply andb_true_iff in H as [Hv Hes].
  destruct (str_eqb n m); [|now apply IH]. intros E. inversion E; subst. assumption.
Qed.

Lemma names_ok_lookup (p : path) :
  forall t v, names_ok t = true -> lookup p t = Some v -> names_ok v = true.
Proof.
  induction p as [|n p IH]; intros t v Ht H.
  - simpl in H. inversion H; subst. assumption.
  - cbn [lookup] in H. destruct t as [c|es|]; try discriminate.
    destruct (find_entry n es) as [u|] eqn:Hn; [|discriminate].
    apply (IH u v); [|assumption]. now apply (names_ok_find n es).
Qed.

Lemma names_ok_graft (p : path) (X : node) :
  forallb segment_ok p = true -> names_ok X = true ->
  forall t, names_ok t = true -> names_ok (graft p X t) = true.
Proof.
  intros Hp HX. induction p as [|n p IH]; intros t Ht; [assumption|].
  cbn [forallb] in Hp. apply andb_true_iff in Hp as [Hn Hp].
  cbn [graft]. destruct t as [c|es|]; try assumption.
  apply names_ok_set_entry; [assumption| |assumption].
  apply (IH Hp). destruct (find_entry n es) as [u|] eqn:Hu; [|reflexivity].
  now apply (names_ok_find n es).
Qed.

(** *** Changes below one path *)

Lemma within_refl (dst : path) (t : node) : within dst t t.
Proof. now left. Qed.

Lemma within_trans (dst : path) (t1 t2 t3 : node) :
  within dst t1 t2 -> within dst t2 t3 -> within dst t1 t3.
Proof.
  intros [->|(X & HX & ->)] [->|(Y & HY & ->)].
  - now left.
  - right. eauto.
  - right. eauto.
  - right. exists Y. split; [assumption|]. apply graft_overwrite.
Qed.

Lemma within_names_ok (dst : path) (t t' : node) :
  forallb segment_ok dst = true -> names_ok t = true ->
  within dst t t' -> names_ok t' = true.
Proof.
  intros Hd Ht [->|(X & HX & ->)]; [assumption|]. now apply names_ok_graft.
Qed.

Lemma within_exists (dst : path) (t t' : node) :
  existsSync t dst = true -> within dst t t' -> existsSync t' dst = true.
Proof.
  unfold existsSync. intros He [->|(X & HX & ->)]; [assumption|].
  destruct (lookup dst t) as [v|] eqn:Hv; [|discriminate].
  now rewrite (lookup_graft_at dst t v X Hv).
Qed.

Lemma within_child (dst : path) (n : jsstring) (t t' : node) :
  names_ok t = true -> segment_ok n = true ->
  existsSync t dst = true ->
  within (dst ++ [n]) t t' -> within dst t t'.
Proof.
  unfold existsSync. intros Ht Hn He [->|(X & HX & ->)]; [now left|].
  destruct (lookup dst t) as [v|] eqn:Hv; [|discriminate].
  destruct v as [c|D|].
  - left. apply (graft_through_file dst [n] X t (File c)); congruence.
  - right. exists (Dir (set_entry n X D)). split.
    + apply names_ok_set_entry; try assumption.
      now apply (names_ok_lookup dst t).
    + now apply graft_child.
  - left. apply (graft_through_file dst [n] X t Other); congruence.
Qed.

Lemma within_lookup (dst q : path) (t t' : node) :
  diverge dst q -> within dst t t' -> lookup q t' = lookup q t.
Proof.
  intros Hd [->|(X & _ & ->)]; [reflexivity|]. now apply lookup_graft_other.
Qed.

Lemma guarded_any {A} (e : env) (op : fs_op) (m : M A) (t t' : node)
    (o : outcome A) :
  guarded e op m t = (o, t') ->
  (t' = t /\ exists err, o = Throw err) \/ m t = (o, t').
Proof.
  unfold guarded, throw. destruct (faults e op); [|auto].
  intros H. inversion H; subst. left. eauto.
Qed.

Lemma statSync_state (e : env) (p : path) (t t' : node) (o : outcome stats) :
  statSync e p t = (o, t') -> t' = t.
Proof.
  intros H. apply guarded_any in H as [[-> _]|H]; [reflexivity|].
  destruct (lookup p t); now inversion H.
Qed.

Lemma readdirSync_state (e : env) (p : path) (t t' : node)
    (o : outcome (list jsstring)) :
  readdirSync e p t = (o, t') -> t' = t.
Proof.
  intros H. apply guarded_any in H as [[-> _]|H]; [reflexivity|].
  destruct (lookup p t) as [[c|es|]|]; now inversion H.
Qed.

Lemma readFileSync_state (e : env) (p : path) (t t' : node)
    (o : outcome jsstring) :
  readFileSync e p t = (o, t') -> t' = t.
Proof.
  intros H. apply guarded_any in H as [[-> _]|H]; [reflexivity|].
  destruct (lookup p t) as [[c|es|]|]; now inversion H.
Qed.

Lemma writeFileSync_within (e : env) (p : path) (c : jsstring) (t t' : node)
    (o : outcome unit) :
  writeFileSync e p c t = (o, t') -> within p t t'.
Proof.
  intros H. apply guarded_any in H as [[-> _]|H]; [now left|].
  destruct (write_file p c t) as [code|t1] eqn:Hw; inversion H; subst.
  - now left.
  - right. exists (File c). split; [reflexivity|].
    now apply write_file_is_graft.
Qed.

Lemma mkdirp_exists (p : path) :
  forall t t', mkdirp p t = inr t' -> existsSync t' p = true.
Proof.
  unfold existsSync. induction p as [|n p IH]; intros t t' H; [reflexivity|].
  cbn [mkdirp] in H. destruct t as [c|es|]; try discriminate.
  destruct (find_entry n es) as [u|].
  - destruct (mkdirp p u) as [|u'] eqn:Hu; [discriminate|].
    inversion H. cbn [lookup]. rewrite find_entry_set_same. apply (IH u u' Hu).
  - destruct (mkdirp p (Dir [])) as [|u'] eqn:Hu; [discriminate|].
    inversion H. cbn [lookup]. rewrite find_entry_set_same.
    apply (IH (Dir []) u' Hu).
Qed.

Lemma ensure_dir_within (e : env) (dst : path) (t t' : node) (o : outcome unit) :
  ensure_dir e dst t = (o, t') ->
  within dst t t' /\ (forall u, o = Done u -> existsSync t' dst = true).
Proof.
  unfold ensure_dir. destruct (existsSync t dst) eqn:He; cbn [negb].
  - intros H. inversion H; subst. split; [now left|auto].
  - intros H. apply guarded_any in H as [[-> (err & ->)]|H].
    + split; [now left|discriminate].
    + destruct (mkdirp dst t) as [code|t1] eqn:Hm; inversion H; subst.
      * split; [now left|discriminate].
      * split.
        -- right. exists (Dir []). split; [reflexivity|].
           apply mkdirp_graft; [|assumption].
           unfold existsSync in He. now destruct (lookup dst t).
        -- intros _ _. now apply (mkdirp_exists dst t).
Qed.

Section Confined.

Variables (e : env) (oldName newName : jsstring).
Hypothesis newName_valid : validateProjectName newName = true.

Lemma copyAndReplaceFile_within (src dst : path) (n : jsstring) (t t' : node)
    (o : outcome unit) :
  existsSync t dst = true ->
  Clone.copyAndReplaceFile e src (dst ++ [n]) oldName newName t = (o, t') ->
  within (dst ++ [n]) t t'.
Proof.
  intros He H. unfold Clone.copyAndReplaceFile in H.
  rewrite dirname_child in H. unfold bind at 1 in H.
  rewrite ensure_dir_present in H by assumption.
  unfold bind in H.
  destruct (readFileSync e src t) as [[c|err] t1] eqn:Hr;
    apply readFileSync_state in Hr; subst t1.
  - now apply writeFileSync_within in H.
  - inversion H. now left.
Qed.

Lemma clone_within (depth : nat) :
  forall src dst root out root',
    names_ok root = true ->
    forallb segment_ok dst = true ->
    Clone.copyAndReplaceDir e depth src dst oldName newName root = (out, root') ->
    within dst root root'.
Proof.
  induction depth as [|d IHd]; intros src dst root out root' Hroot Hdst H.
  { inversion H. now left. }
  cbn [Clone.copyAndReplaceDir] in H. unfold bind at 1 in H.
  destruct (ensure_dir e dst root) as [[[]|err] r0] eqn:Hens;
    apply ensure_dir_within in Hens as [W0 Hex];
    [|inversion H; subst; exact W0].
  specialize (Hex tt eq_refl).
  pose proof (within_names_ok dst root r0 Hdst Hroot W0) as Hr0.
  unfold bind at 1 in H.
  destruct (readdirSync e src r0) as [[items|err] r1] eqn:Hrd;
    [|apply readdirSync_state in Hrd; subst r1; inversion H; subst; exact W0].
  pose proof (readdirSync_state _ _ _ _ _ Hrd) as ->.
  apply readdirSync_done in Hrd as (_ & es & Hes & ->).
  pose proof (names_ok_lookup src r0 (Dir es) Hr0 Hes) as Hnames.
  rewrite names_ok_dir in Hnames.
  apply andb_true_iff in Hnames as [Hnames _].
  apply andb_true_iff in Hnames as [Hseg _].
  apply (within_trans dst root r0 root' W0).
  match type of H with
  | for_each _ ?b _ = _ => set (body := b) in H
  end.
  assert (Step : forall m rk ob r1,
    segment_ok m = true -> names_ok rk = true -> existsSync rk dst = true ->
    body m rk = (ob, r1) -> within dst rk r1).
  { intros m rk ob r1 Hm Hrk Hexk Hb.
    assert (Hm' : segment_ok (destItemName m newName) = true)
      by now apply destItemName_segment.
    unfold body in Hb. cbv zeta in Hb.
    rewrite !path_join_segments in Hb
      by (cbn [forallb]; rewrite ?Hm, ?Hm'; reflexivity).
    unfold bind at 1 in Hb.
    destruct (statSync e (src ++ [m]) rk) as [[st|err] r2] eqn:Hst;
      apply statSync_state in Hst; subst r2;
      [|inversion Hb; now left].
    apply (within_child dst (destItemName m newName)); try assumption.
    destruct st.
    - now apply copyAndReplaceFile_within in Hb.
    - apply IHd in Hb; [assumption|assumption|].
      rewrite forallb_app, Hdst. cbn [forallb]. now rewrite Hm'.
    - inversion Hb. now left. }
  assert (Loop : forall items rk,
    forallb segment_ok items = true ->
    names_ok rk = true -> existsSync rk dst = true ->
    for_each items body rk = (out, root') -> within dst rk root').
  { induction items as [|m items IH]; intros rk Hok Hrk Hexk Hloop.
    - inversion Hloop. now left.
    - cbn [forallb] in Hok. apply andb_true_iff in Hok as [Hm Hok].
      cbn [for_each] in Hloop. unfold bind in Hloop.
      destruct (body m rk) as [[[]|err] r1] eqn:Hb;
        pose proof (Step m rk _ r1 Hm Hrk Hexk Hb) as W1.
      + apply (within_trans dst rk r1 root' W1).
        apply IH; try assumption.
        * now apply (within_names_ok dst rk).
        * now apply (within_exists dst rk).
      + inversion Hloop; subst. exact W1. }
  now apply (Loop (map fst es) r0).
Qed.

End Confined.

(** X10.  Whatever its outcome -- a return or a throw at any point -- the
    cloner changes nothing that does not lie at or below the
    destination: every path that parts ways with the destination leads
    to what it led to before.  The names of the file system stay names
    of entries, none twice in a directory. *)
Theorem cloner_confined :
  forall (e : env) (depth : nat) (src dst : path) (oldName newName : jsstring)
         (root root' : node) (out : outcome unit),
    validateProjectName newName = true ->
    names_ok root = true ->
    forallb segment_ok dst = true ->
    Clone.copyAndReplaceDir e depth src dst oldName newName root = (out, root') ->
    names_ok root' = true
    /\ forall q, is_prefix dst q = false -> is_prefix q dst = false ->
         lookup q root' = lookup q root.
Proof.
  intros e depth src dst oldName newName root root' out Hvalid Hroot Hdst H.
  pose proof (clone_within e oldName newName Hvalid depth src dst root out root'
                Hroot Hdst H) as W.
  split.
  - now apply (within_names_ok dst root).
  - intros q H1 H2. apply (within_lookup dst q root root'); [|assumption].
    now apply incomparable_diverge.
Qed.

Lemma cloner_confined_witness :
  let e := {| cwd := [lit "home"]; module_dirname := [lit "opt"];
              argv0 := [lit "usr"; lit "node"];
              faults := fun op => match op with WriteFile _ => true | _ => false end;
              stack_limit := 8 |} in
  let root := Dir [(lit "home",
                Dir [(lit "sns-demo", Dir [(lit "pom.xml", File (lit "x"))]);
                     (lit "notes.txt", File (lit "mine"))])] in
  let r := Clone.copyAndReplaceDir e 8 [lit "home"; lit "sns-demo"]
             [lit "home"; lit "zoo"] (lit "demo") (lit "zoo") root in
  lookup [lit "home"; lit "notes.txt"] (snd r)
  = lookup [lit "home"; lit "notes.txt"] root.
Proof.
  intros e root r.
  apply (proj2 (cloner_confined e 8 [lit "home"; lit "sns-demo"]
                  [lit "home"; lit "zoo"] (lit "demo") (lit "zoo") root (snd r)
                  (fst r) eq_refl eq_refl eq_refl (surjective_pairing r)));
    reflexivity.
Defined.

(** *** Taking the destination away again *)

Lemma remove_entry_absent (n : jsstring) (es : list (jsstring * node)) :
  find_entry n es = None -> remove_entry n es = es.
Proof.
  unfold remove_entry. induction es as [|[m u] es IH]; [reflexivity|].
  cbn [find_entry filter fst]. destruct (str_eqb n m); [discriminate|].
  cbn [negb]. intros H. now rewrite IH.
Qed.

Lemma remove_path_step (n m : jsstring) (p : path) (es : list (jsstring * node)) :
  remove_path (n :: m :: p) (Dir es)
  = match find_entry n es with
    | Some v => Dir (set_entry n (remove_path (m :: p) v) es)
    | None => Dir es
    end.
Proof. reflexivity. Qed.

Lemma remove_graft (dst : path) (X root : node) :
  free_slot dst root -> remove_path dst (graft dst X root) = root.
Proof.
  intros (par & seg & D & -> & Hpar & Hseg). revert root Hpar.
  induction par as [|z par IH]; intros root Hpar.
  - cbn [lookup] in Hpar. inversion Hpar; subst root.
    cbn [app graft remove_path]. rewrite set_entry_fresh by assumption.
    f_equal. unfold remove_entry. rewrite filter_app. cbn [filter fst].
    rewrite str_eqb_refl. cbn [negb]. rewrite app_nil_r.
    now apply remove_entry_absent.
  - cbn [lookup] in Hpar. destruct root as [c|es|]; try discriminate.
    destruct (find_entry z es) as [u|] eqn:Hz; [|discriminate].
    cbn [app graft]. rewrite Hz.
    destruct (par ++ [seg]) as [|m p] eqn:Hp; [now destruct par|].
    rewrite remove_path_step, find_entry_set_same, set_entry_set.
    rewrite (IH u Hpar). now rewrite set_entry_same.
Qed.

(** X11.  A run in which the cloner throws and the removal of the target is
    not refused leaves the file system exactly as it found it: nothing
    of the half-made project stays.  (The working directory exists and
    has no entry of the project's name; the names of the file system are
    proper.) *)
Theorem failed_run_restores :
  forall (e : env) (args : jsstring) (w : Clone.world) (err : error) (t : node)
         (D : list (jsstring * node)),
    let projectName := trim args in
    let templatePath := Clone.getTemplatePath e (Clone.fs w) in
    let targetPath := cwd e ++ [projectName] in
    validateProjectName projectName = true ->
    names_ok (Clone.fs w) = true ->
    forallb segment_ok (cwd e) = true ->
    lookup (cwd e) (Clone.fs w) = Some (Dir D) ->
    find_entry projectName D = None ->
    existsSync (Clone.fs w) templatePath = true ->
    Clone.copyAndReplaceDir e (stack_limit e) templatePath targetPath
      (lit "demo") projectName (Clone.fs w) = (Throw err, t) ->
    faults e (Rm targetPath) = false ->
    Clone.fs (Clone.action e args w) = Clone.fs w
    /\ Clone.console (Clone.action e args w) = Clone.console w.
Proof.
  intros e args w err t D projectName templatePath targetPath
    Hvalid Hnames Hcwdok Hcwd Hfree Htemplate Hclone Hrm.
  assert (Hslot : free_slot targetPath (Clone.fs w)).
  { exists (cwd e), projectName, D. auto. }
  assert (Hseg : segment_ok projectName = true).
  { rewrite <- (app_nil_r projectName). now apply valid_name_segment. }
  assert (Hdst : forallb segment_ok targetPath = true).
  { unfold targetPath. rewrite forallb_app, Hcwdok. cbn [forallb].
    now rewrite Hseg. }
  pose proof (clone_within e (lit "demo") projectName Hvalid (stack_limit e)
                templatePath targetPath (Clone.fs w) _ t Hnames Hdst Hclone)
    as W.
  assert (Hact : Clone.action e args w
                 = Clone.addItem ERROR (Clone.CreateFailed err)
                     (Clone.set_fs (Clone.fs w)
                        (Clone.addItem INFO (Clone.Starting projectName) w))).
  { unfold Clone.action. fold projectName. rewrite Hvalid. cbn [negb].
    fold templatePath. rewrite Htemplate. cbn [negb].
    rewrite (target_path e projectName Hvalid). fold targetPath.
    unfold existsSync at 1. rewrite (free_slot_absent _ _ Hslot).
    cbn [Clone.addItem Clone.fs]. rewrite Hclone.
    cbn [Clone.set_fs Clone.fs].
    destruct W as [->|(X & _ & ->)].
    - unfold existsSync. rewrite (free_slot_absent _ _ Hslot). reflexivity.
    - unfold existsSync.
      pose proof (free_slot_graft targetPath (Clone.fs w) X [] Hslot) as Hg.
      rewrite app_nil_r in Hg. rewrite Hg. cbn [lookup].
      unfold rmSync, guarded. rewrite Hrm.
      cbn [Clone.set_fs Clone.fs Clone.ui Clone.console].
      now rewrite remove_graft. }
  rewrite Hact. split; reflexivity.
Qed.

Lemma failed_run_restores_witness :
  let e := {| cwd := [lit "home"]; module_dirname := [lit "opt"];
              argv0 := [lit "usr"; lit "node"];
              faults := fun op => match op with
                                  | WriteFile p => str_eqb (last p []) (lit "b.txt")
                                  | _ => false
                                  end;
              stack_limit := 8 |} in
  let w := {| Clone.fs := Dir [(lit "home",
                Dir [(lit "sns-demo", Dir [(lit "a.txt", File (lit "x"));
                                           (lit "b.txt", File (lit "y"))])])];
              Clone.ui := []; Clone.console := [] |} in
  Clone.fs (Clone.action e (lit "zoo") w) = Clone.fs w.
Proof.
  intros e w.
  refine (proj1 (failed_run_restores e (lit "zoo") w
            (FsError EACCES (WriteFile [lit "home"; lit "zoo"; lit "b.txt"]))
            (Dir [(lit "home",
               Dir [(lit "sns-demo", Dir [(lit "a.txt", File (lit "x"));
                                          (lit "b.txt", File (lit "y"))]);
                    (lit "zoo", Dir [(lit "a.txt", File (lit "x"))])])])
            [(lit "sns-demo", Dir [(lit "a.txt", File (lit "x"));
                                   (lit "b.txt", File (lit "y"))])]
            _ _ _ _ _ _ _ _)); reflexivity.
Defined.

(** ** Copying one file *)







(** ** The suffix rules, for every suffix *)

Lemma get_substitution_prefix (matched before after : jsstring) (caps : captures)
    (a t : jsstring) :
  forallb (fun c => negb (c =? dollar)%N) a = true ->
  get_substitution matched before after caps (a ++ t)
  = a ++ get_substitution matched before after caps t.
Proof.
  induction a as [|c a IH]; [reflexivity|]. cbn [forallb app].
  intros H. apply andb_true_iff in H as [Hc Ha].
  cbn [get_substitution]. rewrite Hc. now rewrite IH.
Qed.

(** X13.  One call [.replace(/<tag>sns-demo-([^<]+)<\/tag>/g,
    `<tag>${newName}-$1</tag>`)] on a declaration with any suffix
    without [<], for a valid name: the result is the declaration of
    [newName-suffix], the suffix as it was. *)
Theorem suffix_rule_keeps_suffix :
  forall (open_tag close_rest : string) (tag_open newName suffix : jsstring),
    validateProjectName newName = true ->
    suffix <> [] ->
    forallb not_less_than suffix = true ->
    forallb (fun c => negb (c =? dollar)%N) tag_open = true ->
    forallb (fun c => negb (c =? dollar)%N) (lit close_rest) = true ->
    replace_global (suffixed open_tag (String "<" close_rest))
      (tag_open ++ newName ++ lit "-$1" ++ lit (String "<" close_rest))
      (lit open_tag ++ suffix ++ lit (String "<" close_rest))
    = tag_open ++ newName ++ lit "-" ++ suffix ++ lit (String "<" close_rest).
Proof.
  intros open_tag close_rest tag_open newName suffix Hvalid Hne Hall Htag Hclose.
  set (close_tag := String "<" close_rest).
  set (s := lit open_tag ++ suffix ++ lit close_tag).
  unfold replace_global.
  assert (Hm : forall tot, match_at (suffixed open_tag close_tag) tot (s ++ [])
                           = Some ([], [Some suffix])).
  { intros tot. unfold s. rewrite <- !app_assoc.
    apply match_at_suffixed; [assumption|assumption|reflexivity]. }
  rewrite <- (app_nil_r s) at 2.
  rewrite (replace_from_match _ _ _ _ s [] [Some suffix]).
  - cbn [replace_from].
    assert (Hend : match_at (suffixed open_tag close_tag) (length s) [] = None).
    { unfold match_at, suffixed. cbn [rmatch group_count repeat Nat.add].
      unfold lit. destruct (list_ascii_of_string open_tag); reflexivity. }
    rewrite Hend, app_nil_r.
    rewrite get_substitution_prefix by assumption.
    rewrite get_substitution_prefix by now apply newName_plain.
    f_equal. f_equal.
    change (lit "-$1" ++ lit close_tag)
      with (45%N :: 36%N :: 49%N :: 60%N :: lit close_rest).
    change (lit "-" ++ suffix ++ lit close_tag)
      with (45%N :: suffix ++ 60%N :: lit close_rest).
    set (tail := lit close_rest) in *.
    simpl. now rewrite get_substitution_plain.
  - unfold s. destruct (lit open_tag); [|discriminate].
    destruct suffix; [contradiction|discriminate].
  - apply Hm.
Qed.

Lemma suffix_rule_keeps_suffix_witness :
  apply_rule (lit "<module>sns-demo-infrastructure</module>")
    (nth 6 (rules (lit "my-app")) (Lit [], []))
  = lit "<module>my-app-infrastructure</module>".
Proof.
  apply (suffix_rule_keeps_suffix "<module>sns-demo-" "/module>"
           (lit "<module>") (lit "my-app") (lit "infrastructure")).
  - reflexivity.
  - discriminate.
  - reflexivity.
  - reflexivity.
  - reflexivity.
Defined.
